(** * InitialStateHelper (tests/integration/state_utils.py)

    A shallow embedding of the helper that swallows the first state of
    every stateful entity, records it, and resolves a future once every
    tracked entity has reported.

    Python objects are mutated in place; here every method is a
    computation in a state-and-exception monad over the [World] made of
    the helper instance and of the trace of calls the user callback
    received.  A raise keeps the mutations done before it, as in Python. *)

From Stdlib Require Import ZArith QArith Ascii DecimalString.
From stdpp Require Import base option list sets gmap strings.

#[local] Set Warnings "-clear-no-such-hyp".

Local Open Scope Z_scope.

(** ** Exceptions and the monad *)

Inductive exn : Type :=
  | KeyError
  | InvalidStateError
  | RuntimeError
  | TimeoutError
  | CancelledError.

Definition M (S A : Type) : Type := S -> (exn + A) * S.

Definition ret {S A} (a : A) : M S A := fun s => (inr a, s).

Definition raise {S A} (e : exn) : M S A := fun s => (inl e, s).

Definition bind {S A B} (m : M S A) (k : A -> M S B) : M S B :=
  fun s =>
    match m s with
    | (inr a, s') => k a s'
    | (inl e, s') => (inl e, s')
    end.

Definition get {S} : M S S := fun s => (inr s, s).

Definition modify {S} (f : S -> S) : M S unit := fun s => (inr tt, f s).

(** A computation that may raise but touches no state. *)
Definition lift {S A} (r : exn + A) : M S A := fun s => (r, s).

Declare Scope py_scope.
Delimit Scope py_scope with py.
Notation "x <~ m ;; k" := (bind m (fun x => k))
  (at level 100, m at next level, right associativity) : py_scope.
Notation "m ;;; k" := (bind m (fun _ => k))
  (at level 100, right associativity) : py_scope.
Local Open Scope py_scope.

(** [for x in l: body x] *)
Fixpoint for_each {S A} (body : A -> M S unit) (l : list A) : M S unit :=
  match l with
  | [] => ret tt
  | x :: rest => body x ;;; for_each body rest
  end.

(** Pure exception monad, used by the constructor. *)
Definition ebind {A B} (r : exn + A) (k : A -> exn + B) : exn + B :=
  match r with
  | inr a => k a
  | inl e => inl e
  end.

(** [[f(x) for x in l]] where [f] may raise. *)
Fixpoint comprehension {A B} (f : A -> exn + B) (l : list A) : exn + list B :=
  match l with
  | [] => inr []
  | x :: rest =>
      ebind (f x) (fun y => ebind (comprehension f rest) (fun ys => inr (y :: ys)))
  end.

(** [d[k]] on a dict: KeyError when the key is missing. *)
Definition getitem {K V} `{Countable K} (d : gmap K V) (k : K) : exn + V :=
  match d !! k with
  | Some v => inr v
  | None => inl KeyError
  end.

(** ** aioesphomeapi data *)

(** Modelled from the spec: the entity-info classes of aioesphomeapi are
    library code; only their class (for [isinstance]) and the three
    attributes the helper reads are kept. *)
Module EntityInfo.
Inductive cls : Type :=
  | ButtonInfo
  | BinarySensorInfo
  | SensorInfo
  | SwitchInfo
  | TextSensorInfo
  | ClimateInfo.

Record t : Type := mk {
  class : cls;
  device_id : Z;
  key : Z;
  object_id : string
}.

Definition isinstance_ButtonInfo (e : t) : bool :=
  match class e with
  | ButtonInfo => true
  | _ => false
  end.

(** [type(e).__name__] *)
Definition type_name (e : t) : string :=
  match class e with
  | ButtonInfo => "ButtonInfo"
  | BinarySensorInfo => "BinarySensorInfo"
  | SensorInfo => "SensorInfo"
  | SwitchInfo => "SwitchInfo"
  | TextSensorInfo => "TextSensorInfo"
  | ClimateInfo => "ClimateInfo"
  end.
End EntityInfo.

(** Modelled from the spec: an entity state of aioesphomeapi, an opaque
    payload tagged with the device and the key it comes from. *)
Module EntityState.
Record t (Payload : Type) : Type := mk {
  device_id : Z;
  key : Z;
  payload : Payload
}.
Arguments mk {Payload} _ _ _.
Arguments device_id {Payload} _.
Arguments key {Payload} _.
Arguments payload {Payload} _.
End EntityState.

(** Modelled from the spec: asyncio.Future is library code outside the
    repository; the model follows the asyncio documentation.  [done]
    holds of a finished and of a cancelled future; [set_result] raises
    InvalidStateError unless the future is pending; cancelling a done
    future changes nothing. *)
Module Future.
Inductive t : Type :=
  | PENDING
  | CANCELLED
  | FINISHED (result : bool).

Definition done (f : t) : bool :=
  match f with
  | PENDING => false
  | _ => true
  end.

Definition set_result (f : t) (r : bool) : exn + t :=
  match f with
  | PENDING => inr (FINISHED r)
  | _ => inl InvalidStateError
  end.

Definition cancel (f : t) : t :=
  match f with
  | PENDING => CANCELLED
  | _ => f
  end.

(** [asyncio.get_running_loop().create_future()]: a pending future, or
    RuntimeError when no loop is running in the calling thread. *)
Definition create (loop_running : bool) : exn + t :=
  if loop_running then inr PENDING else inl RuntimeError.
End Future.

(** ** The helper *)

Section InitialStateHelper.
Context {Payload : Type}.

Abbreviation State := (EntityState.t Payload).
Abbreviation Ident := (Z * Z)%type.

Record InitialStateHelper : Type := Helper {
  _wait_initial_states : gset Ident;
  _entities_by_id : gmap Ident EntityInfo.t;
  initial_states : gmap Z State;
  _initial_states_received : Future.t
}.

(** The mutable store: the helper and the calls made to the user
    callback, oldest first. *)
Record World : Type := MkWorld {
  self : InitialStateHelper;
  calls : list State
}.

Definition info_id (entity : EntityInfo.t) : Ident :=
  (EntityInfo.device_id entity, EntityInfo.key entity).

Definition state_id (state : State) : Ident :=
  (EntityState.device_id state, EntityState.key state).

(** [{(e.device_id, e.key) for e in entities if not isinstance(e, ButtonInfo)}] *)
Definition stateful_ids (entities : list EntityInfo.t) : gset Ident :=
  list_to_set
    (info_id <$> filter (fun e => EntityInfo.isinstance_ButtonInfo e = false) entities).

(** [{(e.device_id, e.key): e for e in entities}]: a later entry
    replaces an earlier one with the same identity. *)
Definition entities_by_id (entities : list EntityInfo.t) : gmap Ident EntityInfo.t :=
  foldl (fun d e => <[info_id e := e]> d) ∅ entities.

(** [InitialStateHelper.__init__]; [loop_running] tells whether the call
    is made while an event loop runs (from a coroutine, as in the usage
    the class documents).  The arguments of the debug calls are evaluated
    although their text is dropped: their subscripts can raise. *)
Definition __init__ (loop_running : bool) (entities : list EntityInfo.t)
  : exn + InitialStateHelper :=
  let wait := stateful_ids entities in
  let by_id := entities_by_id entities in
  let found := (fun e => (EntityInfo.type_name e, EntityInfo.object_id e)) <$> entities in
  ebind (comprehension (fun k => ebind (getitem by_id k) (fun e => inr (EntityInfo.object_id e)))
           (elements wait)) (fun _waiting =>
  let not_waiting : gset Ident := list_to_set (info_id <$> entities) ∖ wait in
  ebind (if bool_decide (not_waiting = ∅) then inr []
         else comprehension
                (fun k => ebind (getitem by_id k) (fun e1 =>
                          ebind (getitem by_id k) (fun e2 =>
                          inr (EntityInfo.type_name e1 +:+ ":" +:+ EntityInfo.object_id e2))))
                (elements not_waiting)) (fun _not_waiting_info =>
  ebind (Future.create loop_running) (fun fut =>
  ebind (if bool_decide (wait = ∅) then Future.set_result fut true else inr fut) (fun fut =>
  inr (Helper wait by_id ∅ fut))))).

(** The user callback, observed through the calls it receives. *)
Definition user_callback (state : State) : M World unit :=
  modify (fun w => MkWorld (self w) (calls w ++ [state])).

Definition set_initial_state (state : State) : M World unit :=
  modify (fun w =>
    let h := self w in
    MkWorld (Helper (_wait_initial_states h) (_entities_by_id h)
               (<[EntityState.key state := state]> (initial_states h))
               (_initial_states_received h))
            (calls w)).

Definition discard (entity_id : Ident) : M World unit :=
  modify (fun w =>
    let h := self w in
    MkWorld (Helper (_wait_initial_states h ∖ {[entity_id]}) (_entities_by_id h)
               (initial_states h) (_initial_states_received h))
            (calls w)).

Definition set_result (r : bool) : M World unit :=
  w <~ get ;;
  fut <~ lift (Future.set_result (_initial_states_received (self w)) r) ;;
  modify (fun w =>
    let h := self w in
    MkWorld (Helper (_wait_initial_states h) (_entities_by_id h)
               (initial_states h) fut)
            (calls w)).

(** The closure returned by [on_state_wrapper(user_callback)]. *)
Definition wrapper (state : State) : M World unit :=
  let entity_id := state_id state in
  w <~ get ;;
  (if bool_decide (entity_id ∈ dom (_entities_by_id (self w)))
   then _entity <~ lift (getitem (_entities_by_id (self w)) entity_id) ;; ret tt
   else ret tt) ;;;
  if bool_decide (entity_id ∈ _wait_initial_states (self w)) then
    set_initial_state state ;;;
    discard entity_id ;;;
    w <~ get ;;
    (if bool_decide (entity_id ∈ dom (_entities_by_id (self w)))
     then _name <~ lift (getitem (_entities_by_id (self w)) entity_id) ;; ret tt
     else ret tt) ;;;
    (if bool_decide (_wait_initial_states (self w) = ∅)
        && negb (Future.done (_initial_states_received (self w)))
     then set_result true
     else ret tt) ;;;
    ret tt
  else
    user_callback state.

Definition on_state_wrapper : State -> M World unit := wrapper.

(** The transport calls the subscribed callback once per state, in
    delivery order. *)
Definition deliver (states : list State) : M World unit :=
  for_each wrapper states.

(** What asyncio does to the awaited future when the deadline passes. *)
Definition cancel_future : M World unit :=
  modify (fun w =>
    let h := self w in
    MkWorld (Helper (_wait_initial_states h) (_entities_by_id h)
               (initial_states h) (Future.cancel (_initial_states_received h)))
            (calls w)).

(** Modelled from the spec: asyncio.wait_for(fut, timeout), library code,
    in logical time.  While the caller is suspended the loop runs the
    transport, which hands the [arrivals] to the subscribed callback;
    each arrival carries its offset in seconds from the start of the
    wait.  A finished future ends the wait at once; when the next arrival
    is not before the deadline, or none is left, the future is cancelled
    and TimeoutError is raised in the caller. *)
Fixpoint wait_for (timeout : Q) (arrivals : list (Q * State)) : M World unit :=
  w <~ get ;;
  match _initial_states_received (self w) with
  | Future.FINISHED _ => ret tt
  | Future.CANCELLED => raise CancelledError
  | Future.PENDING =>
      match arrivals with
      | [] => cancel_future ;;; raise TimeoutError
      | (t, state) :: rest =>
          if Qle_bool timeout t then cancel_future ;;; raise TimeoutError
          else wrapper state ;;; wait_for timeout rest
      end
  end.

(** [wait_for_initial_states(self, timeout=5.0)]; [None] stands for a
    call that leaves the argument out.  There is no handler around the
    await: what [wait_for] raises reaches the caller. *)
Definition wait_for_initial_states (timeout : option Q) (arrivals : list (Q * State))
  : M World unit :=
  wait_for (default 5%Q timeout) arrivals.

(** ** Runs of the helper *)

(** The states of [arrivals] that reach the callback before the deadline. *)
Fixpoint due (timeout : Q) (arrivals : list (Q * State)) : list State :=
  match arrivals with
  | [] => []
  | (t, state) :: rest =>
      if Qle_bool timeout t then [] else state :: due timeout rest
  end.

(** What a session does with a helper once it is built. *)
Inductive op : Type :=
  | Deliver (state : State)
  | Wait (timeout : option Q) (arrivals : list (Q * State)).

Definition run_op (o : op) : M World unit :=
  match o with
  | Deliver state => wrapper state
  | Wait timeout arrivals => wait_for_initial_states timeout arrivals
  end.

(** The worlds a session can be in: built by the constructor inside a
    running loop with no call made yet, then any sequence of deliveries
    and waits. *)
Inductive reachable (entities : list EntityInfo.t) : World -> Prop :=
  | reach_init h :
      __init__ true entities = inr h -> reachable entities (MkWorld h [])
  | reach_step w o :
      reachable entities w -> reachable entities (snd (run_op o w)).

(** The first-write-wins reading of the store into [initial_states]: a
    call for an awaited identity leaves an entry that is already there
    under the key of the state as it is. *)
Definition first_write_wins (w : World) (state : State) : Prop :=
  state_id state ∈ _wait_initial_states (self w) ->
  forall old, initial_states (self w) !! EntityState.key state = Some old ->
  initial_states (self (snd (wrapper state w))) !! EntityState.key state = Some old.

(** The world after a sequence of deliveries and waits. *)
Definition session (ops : list op) (w : World) : World :=
  foldl (fun w o => snd (run_op o w)) w ops.

(** What holds of every world of a session over [entities]. *)
Record session_invariant (entities : list EntityInfo.t) (w : World) : Prop := {
  inv_wait : _wait_initial_states (self w) ⊆ stateful_ids entities;
  inv_by_id : _entities_by_id (self w) = entities_by_id entities;
  inv_finished : forall r,
    _initial_states_received (self w) = Future.FINISHED r ->
    _wait_initial_states (self w) = ∅ /\ r = true;
  inv_pending :
    _initial_states_received (self w) = Future.PENDING ->
    _wait_initial_states (self w) ≠ ∅;
  inv_covered : forall id,
    id ∈ stateful_ids entities ->
    id ∈ _wait_initial_states (self w) \/ is_Some (initial_states (self w) !! id.2)
}.

End InitialStateHelper.

(** ** Sample inventories and states used by the closed examples *)

Definition sensor (device key : Z) (name : string) : EntityInfo.t :=
  EntityInfo.mk EntityInfo.SensorInfo device key name.

Definition button (device key : Z) (name : string) : EntityInfo.t :=
  EntityInfo.mk EntityInfo.ButtonInfo device key name.

Definition state_of (device key : Z) (p : string) : EntityState.t string :=
  EntityState.mk device key p.

(** Two sensors and a button on one device. *)
Definition sample_entities : list EntityInfo.t :=
  [sensor 1 10 "temperature"; sensor 1 11 "humidity"; button 1 12 "restart"].

(** Two devices whose sensors have the same key. *)
Definition shared_key_entities : list EntityInfo.t :=
  [sensor 1 10 "temperature"; sensor 2 10 "temperature"].

(** A device with buttons only. *)
Definition button_entities : list EntityInfo.t :=
  [button 1 12 "restart"; button 1 13 "identify"].

(** The same entity listed twice, under two names. *)
Definition duplicate_entities : list EntityInfo.t :=
  [sensor 1 10 "old_name"; sensor 1 11 "humidity"; sensor 1 10 "new_name"].

Definition helper_of (entities : list EntityInfo.t) (fut : Future.t)
  : @InitialStateHelper string :=
  Helper (stateful_ids entities) (entities_by_id entities) ∅ fut.

(** The world right after a successful construction: no call made yet. *)
Definition fresh {Payload} (h : @InitialStateHelper Payload) : World :=
  MkWorld h [].

(** ** build_key_to_entity_mapping (tests/integration/state_utils.py) *)

(** [str.lower()] on ASCII text, which object ids are: the letters A to Z
    go to a to z and every other character stays. *)
Definition lower_char (c : ascii) : ascii :=
  let n := nat_of_ascii c in
  if (65 <=? n)%nat && (n <=? 90)%nat then ascii_of_nat (n + 32) else c.

Fixpoint lower (s : string) : string :=
  match s with
  | EmptyString => EmptyString
  | String c rest => String (lower_char c) (lower rest)
  end.

(** [needle in hay] on strings: [needle] occurs in [hay] at some offset. *)
Fixpoint contains (needle hay : string) : bool :=
  String.prefix needle hay ||
  match hay with
  | EmptyString => false
  | String _ rest => contains needle rest
  end.

(** The inner loop: the first name found in [obj_id] is stored under
    [key] and the loop is left; no name found, nothing stored. *)
Fixpoint scan_entity_names (key : Z) (obj_id : string) (entity_names : list string)
    (key_to_entity : gmap Z string) : gmap Z string :=
  match entity_names with
  | [] => key_to_entity
  | entity_name :: rest =>
      if contains entity_name obj_id
      then <[key := entity_name]> key_to_entity
      else scan_entity_names key obj_id rest key_to_entity
  end.

Definition build_key_to_entity_mapping (entities : list EntityInfo.t)
    (entity_names : list string) : gmap Z string :=
  foldl (fun key_to_entity entity =>
           let obj_id := lower (EntityInfo.object_id entity) in
           scan_entity_names (EntityInfo.key entity) obj_id entity_names key_to_entity)
        ∅ entities.

(** An entity answers to a name when the name occurs in its object id
    put to lower case. *)
Definition answers_to (entity : EntityInfo.t) (entity_name : string) : Prop :=
  exists before after,
    lower (EntityInfo.object_id entity) = before +:+ entity_name +:+ after.

Definition is_upper (c : ascii) : bool :=
  let n := nat_of_ascii c in (65 <=? n)%nat && (n <=? 90)%nat.

Fixpoint has_upper (s : string) : bool :=
  match s with
  | EmptyString => false
  | String c rest => is_upper c || has_upper rest
  end.

(** ** esphome/components/network/__init__.py *)

Module network.

(** The argument of [ip_address_literal]: [str | int | None]. *)
Inductive ip_value : Type :=
  | IpNone
  | IpStr (s : string)
  | IpInt (n : Z).

(** The expression generated: a call of the IPAddress constructor, with
    four integers or with one string. *)
Inductive IPAddress : Type :=
  | IPAddress_octets (a b c d : Z)
  | IPAddress_str (s : string).

(** [str(ip)] *)
Definition decimal (n : Z) : string := NilZero.string_of_int (Z.to_int n).

Definition str (ip : ip_value) : string :=
  match ip with
  | IpNone => "None"
  | IpStr s => s
  | IpInt n => decimal n
  end.

(** [s.split(".")] *)
Fixpoint split_dots (s : string) : list string :=
  match s with
  | EmptyString => [EmptyString]
  | String c rest =>
      if Ascii.eqb c "." then EmptyString :: split_dots rest
      else match split_dots rest with
           | piece :: pieces => String c piece :: pieces
           | [] => [String c EmptyString]
           end
  end.

Definition is_digit (c : ascii) : bool :=
  let n := nat_of_ascii c in (48 <=? n)%nat && (n <=? 57)%nat.

(** [s.isascii() and s.isdigit()] on a string that is not empty. *)
Fixpoint all_digits (s : string) : bool :=
  match s with
  | EmptyString => true
  | String c rest => is_digit c && all_digits rest
  end.

(** [int(s, 10)] on a string of digits. *)
Fixpoint int_of_digits (acc : Z) (s : string) : Z :=
  match s with
  | EmptyString => acc
  | String c rest => int_of_digits (10 * acc + (Z.of_nat (nat_of_ascii c) - 48)) rest
  end.

(** Modelled from the spec: the ipaddress module is library code outside
    the repository; this is IPv4Address._parse_octet of its
    documentation: an octet is one to three ASCII digits, has no leading
    zero unless it is "0", and is at most 255. *)
Definition parse_octet (octet_str : string) : option Z :=
  if String.eqb octet_str "" then None
  else if negb (all_digits octet_str) then None
  else if (3 <? String.length octet_str)%nat then None
  else if negb (String.eqb octet_str "0") && String.prefix "0" octet_str then None
  else
    let octet_int := int_of_digits 0 octet_str in
    if 255 <? octet_int then None else Some octet_int.

(** [int.from_bytes(octets, "big")] *)
Definition from_bytes_big (octets : list Z) : Z :=
  foldl (fun acc b => acc * 256 + b) 0 octets.

(** [ip.to_bytes(4, "big")], the packed form of an IPv4 address. *)
Definition packed (ip : Z) : list Z :=
  [ip / 2 ^ 24 mod 256; ip / 2 ^ 16 mod 256; ip / 2 ^ 8 mod 256; ip mod 256].

(** Modelled from the spec: IPv4Address(address) of the ipaddress module,
    as the integer of the address, [None] when it raises
    AddressValueError.  A string is four octets between dots; an integer
    is taken as it is when it fits 32 bits. *)
Definition IPv4Address (address : ip_value) : option Z :=
  match address with
  | IpNone => None
  | IpInt n => if (n <? 0) || (2 ^ 32 - 1 <? n) then None else Some n
  | IpStr addr_str =>
      if contains "/" addr_str then None
      else if String.eqb addr_str "" then None
      else
        let octets := split_dots addr_str in
        if negb (length octets =? 4)%nat then None
        else from_bytes_big <$> mapM parse_octet octets
  end.

(** [ip_address_literal(ip)].  [ipaddress.ip_address(ip)] is an
    IPv4Address exactly when IPv4Address(ip) does not raise; an
    IPv6Address and a ValueError both end in the string constructor. *)
Definition ip_address_literal (ip : ip_value) : IPAddress :=
  match ip with
  | IpNone => IPAddress_octets 0 0 0 0
  | _ =>
      match IPv4Address ip with
      | Some ip_obj =>
          match packed ip_obj with
          | [o0; o1; o2; o3] => IPAddress_octets o0 o1 o2 o3
          | _ => IPAddress_str (str ip)
          end
      | None => IPAddress_str (str ip)
      end
  end.

(** [str(ipaddress.IPv4Address)]: the dotted decimal text of four octets. *)
Definition dotted (a b c d : Z) : string :=
  decimal a +:+ "." +:+ decimal b +:+ "." +:+ decimal c +:+ "." +:+ decimal d.

(** What [to_code] asks of the code generator, in the order asked. *)
Inductive define_value : Type :=
  | NoValue
  | BoolValue (b : bool)
  | IntValue (n : Z).

Inductive action : Type :=
  | add_define (name : string) (value : define_value)
  | add_library (name : string)
  | add_build_flag (flag : string)
  | add_idf_sdkconfig_option (name : string) (value : bool).

(** The attributes of CORE that [to_code] reads. *)
Record Core : Type := MkCore {
  using_arduino : bool;
  using_esp_idf : bool;
  is_esp32 : bool;
  is_esp8266 : bool;
  is_rp2040 : bool;
  is_bk72xx : bool
}.

(** The two keys of the configuration; [None] is a missing key. *)
Record Config : Type := MkConfig {
  enable_ipv6 : option bool;
  min_ipv6_addr_count : option Z
}.

(** A call to the code generator is recorded at the end of the list. *)
Definition emit (a : action) : M (list action) unit :=
  modify (fun made => made ++ [a]).

Definition when (b : bool) (m : M (list action) unit) : M (list action) unit :=
  if b then m else ret tt.

(** [to_code(config)], run for the calls it makes; the subscript
    [config[CONF_MIN_IPV6_ADDR_COUNT]] raises KeyError on a missing key,
    after the calls made before it. *)
Definition to_code (CORE : Core) (config : Config) : M (list action) unit :=
  emit (add_define "USE_NETWORK" NoValue) ;;;
  when (using_arduino CORE && is_esp32 CORE) (emit (add_library "Networking")) ;;;
  match enable_ipv6 config with
  | None => ret tt
  | Some enable_ipv6 =>
      emit (add_define "USE_NETWORK_IPV6" (BoolValue enable_ipv6)) ;;;
      when enable_ipv6
        (n <~ lift (match min_ipv6_addr_count config with
                    | Some n => inr n
                    | None => inl KeyError
                    end) ;;
         emit (add_define "USE_NETWORK_MIN_IPV6_ADDR_COUNT" (IntValue n))) ;;;
      if is_esp32 CORE then
        if using_esp_idf CORE then
          emit (add_idf_sdkconfig_option "CONFIG_LWIP_IPV6" enable_ipv6) ;;;
          emit (add_idf_sdkconfig_option "CONFIG_LWIP_IPV6_AUTOCONFIG" enable_ipv6)
        else
          emit (add_idf_sdkconfig_option "CONFIG_LWIP_IPV6" true) ;;;
          emit (add_idf_sdkconfig_option "CONFIG_LWIP_IPV6_AUTOCONFIG" true)
      else if enable_ipv6 then
        emit (add_build_flag "-DCONFIG_LWIP_IPV6") ;;;
        emit (add_build_flag "-DCONFIG_LWIP_IPV6_AUTOCONFIG") ;;;
        when (is_rp2040 CORE)
          (emit (add_build_flag "-DPIO_FRAMEWORK_ARDUINO_ENABLE_IPV6")) ;;;
        when (is_esp8266 CORE)
          (emit (add_build_flag "-DPIO_FRAMEWORK_ARDUINO_LWIP2_IPV6_LOW_MEMORY")) ;;;
        when (is_bk72xx CORE) (emit (add_build_flag "-DCONFIG_IPV6"))
      else ret tt
  end.

Definition is_sdkconfig (a : action) : bool :=
  match a with add_idf_sdkconfig_option _ _ => true | _ => false end.

Definition is_build_flag (a : action) : bool :=
  match a with add_build_flag _ => true | _ => false end.

End network.

(** ** Generic facts about the monad *)

Lemma bind_ok {S A B} (m : M S A) (k : A -> M S B) s a s' :
  m s = (inr a, s') -> bind m k s = k a s'.
Proof. intros E. unfold bind. now rewrite E. Qed.

Lemma bind_raise {S A B} (m : M S A) (k : A -> M S B) s e s' :
  m s = (inl e, s') -> bind m k s = (inl e, s').
Proof. intros E. unfold bind. now rewrite E. Qed.

Lemma for_each_app {S A} (body : A -> M S unit) l1 l2 s :
  for_each body (l1 ++ l2) s = bind (for_each body l1) (fun _ => for_each body l2) s.
Proof.
  revert s. induction l1 as [|x l1 IH]; intros s; simpl.
  - reflexivity.
  - unfold bind. destruct (body x s) as [[e|[]] s1]; [reflexivity|].
    rewrite IH. reflexivity.
Qed.

Lemma comprehension_total {A B} (f : A -> exn + B) l :
  (forall x, x ∈ l -> exists y, f x = inr y) ->
  exists ys, comprehension f l = inr ys.
Proof.
  induction l as [|x l IH]; intros Hf; simpl.
  - now exists [].
  - destruct (Hf x) as [y Hy]; [left|].
    destruct IH as [ys Hys]; [intros z Hz; apply Hf; now right|].
    exists (y :: ys). now rewrite Hy, Hys.
Qed.

Lemma getitem_dom {K V} `{Countable K} (d : gmap K V) k :
  k ∈ dom d -> exists v, getitem d k = inr v.
Proof.
  intros [v Hv]%elem_of_dom. exists v. unfold getitem. now rewrite Hv.
Qed.

Section Facts.
Context {Payload : Type}.
Implicit Types (w : @World Payload) (h : @InitialStateHelper Payload).
Implicit Types (state : EntityState.t Payload) (entities : list EntityInfo.t).

(** *** Construction *)

Lemma entities_by_id_foldl entities (d : gmap (Z * Z) EntityInfo.t) id :
  foldl (fun d e => <[info_id e := e]> d) d entities !! id =
    match last (filter (fun e => info_id e = id) entities) with
    | Some e => Some e
    | None => d !! id
    end.
Proof.
  revert d. induction entities as [|e l IH]; intros d; simpl; [reflexivity|].
  rewrite IH, filter_cons. case_decide as Hid.
  - rewrite last_cons. destruct (last (filter _ l)); [reflexivity|].
    subst id. apply lookup_insert_eq.
  - destruct (last (filter _ l)); [reflexivity|].
    now apply lookup_insert_ne.
Qed.

Lemma entities_by_id_lookup entities id :
  entities_by_id entities !! id = last (filter (fun e => info_id e = id) entities).
Proof.
  unfold entities_by_id. rewrite entities_by_id_foldl, lookup_empty.
  now destruct (last _).
Qed.

Lemma entities_by_id_dom entities :
  dom (entities_by_id entities) = list_to_set (info_id <$> entities).
Proof.
  apply set_eq. intros id.
  rewrite elem_of_dom, entities_by_id_lookup, elem_of_list_to_set, list_elem_of_fmap.
  split.
  - intros [e [? ?]%last_Some_elem_of%list_elem_of_filter]. eauto.
  - intros (e & -> & Hin).
    assert (e ∈ filter (fun e' => info_id e' = info_id e) entities) as Hf
      by now apply list_elem_of_filter.
    destruct (filter _ entities) as [|x l] eqn:E; [inversion Hf|].
    destruct (last (x :: l)) eqn:El; [eauto|].
    now apply last_None in El.
Qed.

Lemma stateful_ids_spec entities id :
  id ∈ @stateful_ids entities <->
  exists e, e ∈ entities /\ EntityInfo.isinstance_ButtonInfo e = false /\ info_id e = id.
Proof.
  unfold stateful_ids. rewrite elem_of_list_to_set, list_elem_of_fmap.
  split.
  - intros (e & -> & [? ?]%list_elem_of_filter). eauto.
  - intros (e & ? & ? & <-). exists e. split; [reflexivity|].
    now apply list_elem_of_filter.
Qed.

Lemma stateful_ids_known entities :
  stateful_ids entities ⊆ dom (entities_by_id entities).
Proof.
  intros id (e & ? & _ & <-)%stateful_ids_spec.
  rewrite entities_by_id_dom, elem_of_list_to_set, list_elem_of_fmap. eauto.
Qed.

(** What the constructor builds, in closed form; it never raises. *)
Lemma init_eq entities :
  @__init__ Payload true entities =
    inr (Helper (stateful_ids entities) (entities_by_id entities) ∅
           (if bool_decide (stateful_ids entities = ∅)
            then Future.FINISHED true else Future.PENDING)).
Proof.
  unfold __init__.
  destruct (comprehension_total
              (fun k => ebind (getitem (entities_by_id entities) k)
                          (fun e => inr (EntityInfo.object_id e)))
              (elements (stateful_ids entities))) as [ys ->].
  { intros k Hk%elem_of_elements.
    destruct (getitem_dom (entities_by_id entities) k) as [v Hv].
    - now apply stateful_ids_known.
    - rewrite Hv. simpl. eauto. }
  simpl.
  match goal with
  | |- ebind (if ?b then _ else ?c) _ = _ => assert (exists zs, c = inr zs) as [zs Hzs]
  end.
  { apply comprehension_total. intros k Hk%elem_of_elements.
    destruct (getitem_dom (entities_by_id entities) k) as [v Hv].
    - rewrite entities_by_id_dom. set_solver.
    - rewrite Hv. simpl. eauto. }
  rewrite Hzs.
  destruct (bool_decide (_ ∖ _ = ∅)); simpl;
    now destruct (bool_decide (stateful_ids entities = ∅)).
Qed.

(** Outside a running loop the constructor raises. *)
Lemma init_no_loop entities :
  @__init__ Payload false entities = inl RuntimeError.
Proof.
  pose proof (init_eq entities) as Hinit. unfold __init__ in *.
  destruct (comprehension _ (elements (stateful_ids entities))); [discriminate|].
  simpl in *.
  match goal with
  | |- ebind ?c _ = _ => destruct c; [discriminate|reflexivity]
  end.
Qed.

(** *** One call of the wrapped callback *)

(** The guarded subscript of the two debug calls never raises. *)
Lemma guarded_getitem_ok (d : gmap (Z * Z) EntityInfo.t) id w :
  (if bool_decide (id ∈ dom d)
   then _e <~ lift (getitem d id) ;; ret tt
   else ret tt) w = (inr tt, w).
Proof.
  case_bool_decide as Hd; [|reflexivity].
  destruct (getitem_dom d id Hd) as [v Hv].
  unfold bind, lift. now rewrite Hv.
Qed.

(** A state whose identity is not awaited goes to the user callback. *)
Lemma wrapper_forward state w :
  state_id state ∉ _wait_initial_states (self w) ->
  wrapper state w = (inr tt, MkWorld (self w) (calls w ++ [state])).
Proof.
  intros Hout. unfold wrapper.
  rewrite (bind_ok _ _ w w w) by reflexivity.
  rewrite (bind_ok _ _ w tt w) by apply guarded_getitem_ok.
  now rewrite bool_decide_eq_false_2.
Qed.

(** A state whose identity is awaited is stored under its key, its
    identity leaves the set, and the future gets its result when the set
    is then empty and the future is not done. *)
Lemma wrapper_swallow state w :
  state_id state ∈ _wait_initial_states (self w) ->
  wrapper state w =
    (inr tt,
     MkWorld
       (Helper (_wait_initial_states (self w) ∖ {[state_id state]})
          (_entities_by_id (self w))
          (<[EntityState.key state := state]> (initial_states (self w)))
          (if bool_decide (_wait_initial_states (self w) ∖ {[state_id state]} = ∅)
              && negb (Future.done (_initial_states_received (self w)))
           then Future.FINISHED true
           else _initial_states_received (self w)))
       (calls w)).
Proof.
  intros Hin. unfold wrapper.
  rewrite (bind_ok _ _ w w w) by reflexivity.
  rewrite (bind_ok _ _ w tt w) by apply guarded_getitem_ok.
  rewrite bool_decide_eq_true_2 by assumption.
  unfold set_initial_state, discard.
  erewrite bind_ok by reflexivity.
  erewrite bind_ok by reflexivity.
  erewrite bind_ok by reflexivity.
  erewrite bind_ok by apply guarded_getitem_ok.
  cbn [self _wait_initial_states _entities_by_id initial_states
       _initial_states_received calls].
  destruct (bool_decide (_ ∖ _ = ∅)); cbn [andb];
    [|reflexivity].
  destruct (_initial_states_received (self w)); reflexivity.
Qed.

(** The wrapper itself never raises, whatever the world it runs in. *)
Lemma wrapper_total state w : exists w', wrapper state w = (inr tt, w').
Proof.
  destruct (decide (state_id state ∈ _wait_initial_states (self w))).
  - rewrite wrapper_swallow by assumption. eauto.
  - rewrite wrapper_forward by assumption. eauto.
Qed.

Lemma deliver_total states w : exists w', deliver states w = (inr tt, w').
Proof.
  revert w. induction states as [|state states IH]; intros w; simpl.
  - now exists w.
  - destruct (wrapper_total state w) as [w1 E1].
    unfold deliver; simpl. rewrite (bind_ok _ _ _ _ _ E1). apply IH.
Qed.

(** The awaited set after one call, whichever branch is taken. *)
Lemma wrapper_wait state w :
  _wait_initial_states (self (snd (wrapper state w))) =
    _wait_initial_states (self w) ∖ {[state_id state]}.
Proof.
  destruct (decide (state_id state ∈ _wait_initial_states (self w))).
  - now rewrite wrapper_swallow.
  - rewrite wrapper_forward by assumption. simpl. set_solver.
Qed.

Lemma wrapper_by_id state w :
  _entities_by_id (self (snd (wrapper state w))) = _entities_by_id (self w).
Proof.
  destruct (decide (state_id state ∈ _wait_initial_states (self w))).
  - now rewrite wrapper_swallow.
  - now rewrite wrapper_forward.
Qed.

(** A done future is left as it is. *)
Lemma wrapper_latch state w :
  Future.done (_initial_states_received (self w)) = true ->
  _initial_states_received (self (snd (wrapper state w))) =
    _initial_states_received (self w).
Proof.
  intros Hdone.
  destruct (decide (state_id state ∈ _wait_initial_states (self w))).
  - rewrite wrapper_swallow by assumption. simpl.
    now rewrite Hdone, andb_false_r.
  - now rewrite wrapper_forward.
Qed.

(** Entries of [initial_states] are replaced, never dropped. *)
Lemma wrapper_keeps_keys state w k :
  is_Some (initial_states (self w) !! k) ->
  is_Some (initial_states (self (snd (wrapper state w))) !! k).
Proof.
  intros Hk.
  destruct (decide (state_id state ∈ _wait_initial_states (self w))).
  - rewrite wrapper_swallow by assumption. simpl.
    rewrite lookup_insert. case_decide; [eauto|assumption].
  - now rewrite wrapper_forward.
Qed.

(** *** Deliveries *)

Lemma deliver_cons state states w :
  deliver (state :: states) w = deliver states (snd (wrapper state w)).
Proof.
  destruct (wrapper_total state w) as [w1 E1].
  unfold deliver; simpl. now rewrite (bind_ok _ _ _ _ _ E1), E1.
Qed.

Lemma deliver_app states1 states2 w :
  deliver (states1 ++ states2) w = deliver states2 (snd (deliver states1 w)).
Proof.
  revert w. induction states1 as [|state states1 IH]; intros w.
  - reflexivity.
  - simpl. now rewrite !deliver_cons, IH.
Qed.

Lemma deliver_wait states w :
  _wait_initial_states (self (snd (deliver states w))) =
    _wait_initial_states (self w) ∖ list_to_set (state_id <$> states).
Proof.
  revert w. induction states as [|state states IH]; intros w.
  - simpl. set_solver.
  - rewrite deliver_cons, IH, wrapper_wait. simpl. set_solver.
Qed.

Lemma deliver_latch states w r :
  _initial_states_received (self w) = Future.FINISHED r ->
  _initial_states_received (self (snd (deliver states w))) = Future.FINISHED r.
Proof.
  revert w. induction states as [|state states IH]; intros w Hr.
  - assumption.
  - rewrite deliver_cons. apply IH. rewrite wrapper_latch; [assumption|].
    now rewrite Hr.
Qed.

(** One state per awaited identity, each once: all are swallowed and the
    future has its result at the end. *)
Lemma deliver_all states w :
  NoDup (state_id <$> states) ->
  list_to_set (state_id <$> states) = _wait_initial_states (self w) ->
  _initial_states_received (self w) =
    (if bool_decide (_wait_initial_states (self w) = ∅)
     then Future.FINISHED true else Future.PENDING) ->
  exists w',
    deliver states w = (inr tt, w') /\
    _wait_initial_states (self w') = ∅ /\
    _initial_states_received (self w') = Future.FINISHED true /\
    calls w' = calls w.
Proof.
  revert w. induction states as [|state states IH]; intros w Hnd Hset Hfut.
  - exists w. simpl in Hset. rewrite <- Hset in Hfut |- *.
    rewrite bool_decide_eq_true_2 in Hfut by reflexivity. auto.
  - rewrite fmap_cons in Hnd, Hset. apply NoDup_cons in Hnd as [Hfresh Hnd].
    rewrite list_to_set_cons in Hset.
    assert (state_id state ∈ _wait_initial_states (self w)) as Hin by set_solver.
    rewrite bool_decide_eq_false_2 in Hfut by set_solver.
    rewrite deliver_cons, wrapper_swallow by assumption. simpl.
    rewrite Hfut. simpl. rewrite andb_true_r.
    assert (list_to_set (state_id <$> states)
            = _wait_initial_states (self w) ∖ {[state_id state]}) as Hrest.
    { apply set_eq. intros id. rewrite <- Hset.
      rewrite elem_of_difference, elem_of_union, elem_of_singleton,
        elem_of_list_to_set.
      split; [intros Hid; split; [now right|intros ->; contradiction]|].
      intros [[->|Hid] Hne]; [contradiction|assumption]. }
    destruct (IH (MkWorld
                    (Helper (_wait_initial_states (self w) ∖ {[state_id state]})
                       (_entities_by_id (self w))
                       (<[EntityState.key state := state]> (initial_states (self w)))
                       (if bool_decide
                             (_wait_initial_states (self w) ∖ {[state_id state]} = ∅)
                        then Future.FINISHED true else Future.PENDING))
                    (calls w)))
      as (w' & Hrun & Hw & Hf & Hc); auto.
    exists w'. auto.
Qed.

(** *** Waiting *)

Lemma cancel_future_eq w :
  cancel_future w =
    (inr tt,
     MkWorld (Helper (_wait_initial_states (self w)) (_entities_by_id (self w))
                (initial_states (self w))
                (Future.cancel (_initial_states_received (self w))))
             (calls w)).
Proof. reflexivity. Qed.

Lemma on_timeout_eq w :
  (cancel_future ;;; raise TimeoutError : M World unit) w =
    (inl TimeoutError, snd (cancel_future w)).
Proof. reflexivity. Qed.

(** The wait, one arrival at a time. *)
Lemma wait_for_eq timeout arrivals w :
  wait_for timeout arrivals w =
    match _initial_states_received (self w) with
    | Future.FINISHED _ => (inr tt, w)
    | Future.CANCELLED => (inl CancelledError, w)
    | Future.PENDING =>
        match arrivals with
        | [] => (inl TimeoutError, snd (cancel_future w))
        | (t, state) :: rest =>
            if Qle_bool timeout t then (inl TimeoutError, snd (cancel_future w))
            else wait_for timeout rest (snd (wrapper state w))
        end
    end.
Proof.
  destruct arrivals as [|[t state] rest]; cbn [wait_for]; unfold bind at 1, get;
    cbv beta iota;
    destruct (_initial_states_received (self w)); try reflexivity.
  destruct (Qle_bool timeout t); [reflexivity|].
  destruct (wrapper_total state w) as [w1 E1].
  now rewrite (bind_ok _ _ _ _ _ E1), E1.
Qed.

(** A wait on a finished future returns at once and runs nothing. *)
Lemma wait_for_finished timeout arrivals w r :
  _initial_states_received (self w) = Future.FINISHED r ->
  wait_for timeout arrivals w = (inr tt, w).
Proof. intros Hr. now rewrite wait_for_eq, Hr. Qed.

(** Whatever the wrapper and the cancellation keep, a wait keeps. *)
Lemma wait_for_preserves (P : World -> Prop) timeout arrivals w :
  (forall state w, P w -> P (snd (wrapper state w))) ->
  (forall w, P w -> P (snd (cancel_future w))) ->
  P w -> P (snd (wait_for timeout arrivals w)).
Proof.
  intros Hwrap Hcancel. revert w.
  induction arrivals as [|[t state] rest IH]; intros w Hw; rewrite wait_for_eq;
    destruct (_initial_states_received (self w)); try assumption.
  - now apply Hcancel.
  - destruct (Qle_bool timeout t); [now apply Hcancel|]. apply IH, Hwrap, Hw.
Qed.

(** A pending future stays pending while identities are awaited. *)
Lemma wrapper_pending state w :
  _initial_states_received (self w) = Future.PENDING ->
  _wait_initial_states (self (snd (wrapper state w))) ≠ ∅ ->
  _initial_states_received (self (snd (wrapper state w))) = Future.PENDING.
Proof.
  intros Hfut. rewrite wrapper_wait. intros Hleft.
  destruct (decide (state_id state ∈ _wait_initial_states (self w))).
  - rewrite wrapper_swallow by assumption. simpl.
    now rewrite bool_decide_eq_false_2.
  - now rewrite wrapper_forward.
Qed.

(** The deadline passes with identities still awaited: the wait raises
    TimeoutError and leaves the future cancelled. *)
Lemma wait_for_timeout timeout arrivals w :
  _initial_states_received (self w) = Future.PENDING ->
  _wait_initial_states (self (snd (deliver (due timeout arrivals) w))) ≠ ∅ ->
  fst (wait_for timeout arrivals w) = inl TimeoutError /\
  _initial_states_received (self (snd (wait_for timeout arrivals w))) = Future.CANCELLED.
Proof.
  revert w. induction arrivals as [|[t state] rest IH]; intros w Hfut Hleft;
    rewrite wait_for_eq, Hfut.
  - simpl. now rewrite Hfut.
  - simpl in Hleft. destruct (Qle_bool timeout t).
    + simpl. now rewrite Hfut.
    + rewrite deliver_cons in Hleft. apply IH; [|assumption].
      apply wrapper_pending; [assumption|].
      rewrite deliver_wait in Hleft. set_solver.
Qed.

(** *** The session invariant *)

Lemma invariant_init entities h :
  __init__ true entities = inr h -> session_invariant entities (MkWorld h []).
Proof.
  rewrite init_eq. intros [= <-]. split; simpl.
  - reflexivity.
  - reflexivity.
  - intros r. case_bool_decide; [intros [= <-]; auto|discriminate].
  - case_bool_decide; [discriminate|auto].
  - auto.
Qed.

Lemma invariant_wrapper entities state w :
  session_invariant entities w -> session_invariant entities (snd (wrapper state w)).
Proof.
  intros [Hwait Hby Hfin Hpen Hcov]. split.
  - rewrite wrapper_wait. set_solver.
  - now rewrite wrapper_by_id.
  - destruct (decide (state_id state ∈ _wait_initial_states (self w))) as [Hin|Hout].
    + rewrite wrapper_swallow by assumption. simpl. intros r.
      case_bool_decide as Hempty; simpl.
      * destruct (_initial_states_received (self w)) eqn:Hfut; simpl.
        -- intros [= <-]. auto.
        -- discriminate.
        -- intros [= <-]. destruct (Hfin _ eq_refl) as [He _]. set_solver.
      * intros Hr. destruct (Hfin _ Hr) as [He _]. set_solver.
    + now rewrite wrapper_forward.
  - destruct (decide (state_id state ∈ _wait_initial_states (self w))) as [Hin|Hout].
    + rewrite wrapper_swallow by assumption. simpl.
      case_bool_decide as Hempty; simpl; [|auto].
      destruct (_initial_states_received (self w)); simpl; discriminate.
    + now rewrite wrapper_forward.
  - intros id Hid.
    destruct (Hcov id Hid) as [Hw|Hs]; [|right; now apply wrapper_keeps_keys].
    destruct (decide (id = state_id state)) as [->|Hne].
    + right. rewrite wrapper_swallow by assumption. simpl.
      rewrite lookup_insert_eq. eauto.
    + left. rewrite wrapper_wait. set_solver.
Qed.

Lemma invariant_cancel entities w :
  session_invariant entities w -> session_invariant entities (snd (cancel_future w)).
Proof.
  intros [Hwait Hby Hfin Hpen Hcov]. split; simpl; try assumption.
  - intros r. destruct (_initial_states_received (self w)) eqn:Hfut; simpl;
      try discriminate.
    intros [= <-]. now apply Hfin.
  - destruct (_initial_states_received (self w)); simpl; discriminate.
Qed.

Lemma invariant_deliver entities states w :
  session_invariant entities w -> session_invariant entities (snd (deliver states w)).
Proof.
  revert w. induction states as [|state states IH]; intros w Hw; [assumption|].
  rewrite deliver_cons. now apply IH, invariant_wrapper.
Qed.

(** The awaited set empties before the deadline: the wait returns. *)
Lemma wait_for_resolved entities timeout arrivals w :
  session_invariant entities w ->
  _wait_initial_states (self (snd (deliver (due timeout arrivals) w))) = ∅ ->
  _initial_states_received (self w) ≠ Future.CANCELLED ->
  fst (wait_for timeout arrivals w) = inr tt.
Proof.
  revert w. induction arrivals as [|[t state] rest IH]; intros w Hinv Hempty Hnc;
    rewrite wait_for_eq;
    destruct (_initial_states_received (self w)) eqn:Hfut;
    try reflexivity; try contradiction.
  - destruct (inv_pending _ _ Hinv Hfut). exact Hempty.
  - simpl in Hempty. destruct (Qle_bool timeout t).
    + destruct (inv_pending _ _ Hinv Hfut). exact Hempty.
    + rewrite deliver_cons in Hempty.
      apply IH; [now apply invariant_wrapper|assumption|].
      destruct (decide (state_id state ∈ _wait_initial_states (self w))).
      * rewrite wrapper_swallow by assumption. simpl. rewrite Hfut.
        now destruct (bool_decide _).
      * rewrite wrapper_forward by assumption. simpl. now rewrite Hfut.
Qed.

Lemma invariant_reachable entities w :
  reachable entities w -> session_invariant entities w.
Proof.
  induction 1 as [h Hh|w o Hw IH].
  - now apply invariant_init.
  - destruct o as [state|timeout arrivals]; simpl.
    + now apply invariant_wrapper.
    + unfold wait_for_initial_states.
      apply wait_for_preserves; auto using invariant_wrapper, invariant_cancel.
Qed.

(** *** Sessions *)

Lemma run_op_wait o w :
  _wait_initial_states (self (snd (run_op o w))) ⊆ _wait_initial_states (self w).
Proof.
  destruct o as [state|timeout arrivals]; simpl.
  - rewrite wrapper_wait. set_solver.
  - unfold wait_for_initial_states.
    apply (wait_for_preserves
             (fun w' => _wait_initial_states (self w') ⊆ _wait_initial_states (self w))).
    + intros state w' Hw'. rewrite wrapper_wait. set_solver.
    + intros w' Hw'. exact Hw'.
    + reflexivity.
Qed.

Lemma session_app ops1 ops2 w :
  session (ops1 ++ ops2) w = session ops2 (session ops1 w).
Proof. unfold session. apply foldl_app. Qed.

Lemma session_wait ops w :
  _wait_initial_states (self (session ops w)) ⊆ _wait_initial_states (self w).
Proof.
  revert w. induction ops as [|o ops IH]; intros w; simpl; [reflexivity|].
  etransitivity; [apply IH|apply run_op_wait].
Qed.

Lemma session_latch ops w r :
  _initial_states_received (self w) = Future.FINISHED r ->
  _initial_states_received (self (session ops w)) = Future.FINISHED r.
Proof.
  revert w. induction ops as [|o ops IH]; intros w Hr; simpl; [assumption|].
  apply IH. destruct o as [state|timeout arrivals]; simpl.
  - rewrite wrapper_latch; [assumption|now rewrite Hr].
  - unfold wait_for_initial_states.
    now rewrite (wait_for_finished _ _ _ r Hr).
Qed.

Lemma reachable_session entities h ops :
  __init__ true entities = inr h -> reachable entities (session ops (MkWorld h [])).
Proof.
  intros Hh. induction ops as [|o ops IH] using rev_ind.
  - now constructor.
  - rewrite session_app. simpl. now constructor.
Qed.

Lemma size_list_to_set_remove_dups (l : list (Z * Z)) :
  size (list_to_set l : gset (Z * Z)) = length (remove_dups l).
Proof.
  rewrite <- (size_list_to_set (C := gset (Z * Z)) (remove_dups l))
    by apply NoDup_remove_dups.
  f_equal. apply set_eq. intros x.
  now rewrite !elem_of_list_to_set, elem_of_remove_dups.
Qed.

End Facts.

(** * The claims *)

Section Claims.
Context {Payload : Type}.
Implicit Types (w : @World Payload) (h : @InitialStateHelper Payload).
Implicit Types (state : EntityState.t Payload) (entities : list EntityInfo.t).

(** C1: when exactly one state per stateful identity of the inventory is
    delivered through the wrapper, in any order, the awaited set ends
    empty, the future ends with its result, and the user callback has
    received none of these states. *)
Theorem C1_one_event_per_identity entities (states : list (EntityState.t Payload)) :
  NoDup (state_id <$> states) ->
  list_to_set (state_id <$> states) = stateful_ids entities ->
  exists h w',
    __init__ true entities = inr h /\
    deliver states (fresh h) = (inr tt, w') /\
    _wait_initial_states (self w') = ∅ /\
    _initial_states_received (self w') = Future.FINISHED true /\
    calls w' = [].
Proof.
  intros Hnd Hset. rewrite init_eq. eexists.
  destruct (deliver_all states
              (fresh (Helper (stateful_ids entities) (entities_by_id entities) ∅
                        (if bool_decide (stateful_ids entities = ∅)
                         then Future.FINISHED true else Future.PENDING))))
    as (w' & Hrun & Hw & Hf & Hc); [assumption|assumption|reflexivity|].
  exists w'. auto.
Qed.

(** C2 (as the code has it): a state whose identity is awaited is stored
    under its key whether or not the key has an entry (the last write
    wins); when two awaited identities on different devices share a key,
    the state of the later arrival is the one kept. *)
Theorem C2_last_write_wins state w :
  state_id state ∈ _wait_initial_states (self w) ->
  initial_states (self (snd (wrapper state w))) =
    <[EntityState.key state := state]> (initial_states (self w)) /\
  forall state2,
    state_id state2 ∈ _wait_initial_states (self w) ->
    state_id state2 ≠ state_id state ->
    EntityState.key state2 = EntityState.key state ->
    initial_states (self (snd (deliver [state; state2] w))) !! EntityState.key state
      = Some state2.
Proof.
  intros Hin. split.
  - now rewrite wrapper_swallow.
  - intros state2 Hin2 Hne Hkey.
    rewrite !deliver_cons. simpl.
    rewrite (wrapper_swallow state2).
    + simpl. rewrite <- Hkey. apply lookup_insert_eq.
    + rewrite wrapper_wait. set_solver.
Qed.

(** C3: a state whose identity is not awaited, never tracked or already
    discarded, is passed once and as it is to the user callback, and the
    helper is left as it was: same awaited set, same initial states, same
    future. *)
Theorem C3_not_pending_is_forwarded state w :
  state_id state ∉ _wait_initial_states (self w) ->
  exists w',
    wrapper state w = (inr tt, w') /\
    calls w' = calls w ++ [state] /\
    _wait_initial_states (self w') = _wait_initial_states (self w) /\
    initial_states (self w') = initial_states (self w) /\
    _initial_states_received (self w') = _initial_states_received (self w) /\
    self w' = self w.
Proof.
  intros Hout. rewrite wrapper_forward by assumption.
  eexists. split; [reflexivity|]. simpl. auto.
Qed.

(** C4: with no stateful entity in the inventory the constructor gives
    the future its result before it returns, and a wait on the new helper
    returns at once, with no state delivered meanwhile. *)
Theorem C4_nothing_to_wait_for entities :
  (forall e, e ∈ entities -> EntityInfo.isinstance_ButtonInfo e = true) ->
  exists h,
    @__init__ Payload true entities = inr h /\
    _initial_states_received h = Future.FINISHED true /\
    forall timeout arrivals calls0,
      wait_for_initial_states timeout arrivals (MkWorld h calls0)
        = (inr tt, MkWorld h calls0).
Proof.
  intros Hall. rewrite init_eq. eexists. split; [reflexivity|].
  assert (stateful_ids entities = ∅) as ->.
  { apply set_eq. intros id. rewrite stateful_ids_spec. split; [|set_solver].
    intros (e & He & Hb & _). rewrite (Hall e He) in Hb. discriminate. }
  rewrite bool_decide_eq_true_2 by reflexivity. simpl. split; [reflexivity|].
  intros timeout arrivals calls0. unfold wait_for_initial_states.
  now apply (wait_for_finished _ _ _ true).
Qed.

(** C5: the awaited set is seeded with exactly the stateful identities of
    the inventory; a call of the wrapper leaves it as it was or takes out
    the identity of the state it was given; no delivery and no wait adds
    to it, so an identity that has left it is never in it again. *)
Theorem C5_pending_set_only_shrinks :
  (forall entities h,
     @__init__ Payload true entities = inr h ->
     forall id, id ∈ _wait_initial_states h <->
       exists e, e ∈ entities /\ EntityInfo.isinstance_ButtonInfo e = false /\
                 info_id e = id) /\
  (forall state w,
     _wait_initial_states (self (snd (wrapper state w))) = _wait_initial_states (self w) \/
     (state_id state ∈ _wait_initial_states (self w) /\
      _wait_initial_states (self (snd (wrapper state w)))
        = _wait_initial_states (self w) ∖ {[state_id state]})) /\
  (forall ops w,
     _wait_initial_states (self (session ops w)) ⊆ _wait_initial_states (self w)) /\
  (forall ops1 ops2 w id,
     id ∉ _wait_initial_states (self (session ops1 w)) ->
     id ∉ _wait_initial_states (self (session (ops1 ++ ops2) w))).
Proof.
  split; [|split; [|split]].
  - intros entities h. rewrite init_eq. intros [= <-] id. simpl.
    apply stateful_ids_spec.
  - intros state w.
    destruct (decide (state_id state ∈ _wait_initial_states (self w))).
    + right. split; [assumption|]. apply wrapper_wait.
    + left. now rewrite wrapper_forward.
  - intros ops w. apply session_wait.
  - intros ops1 ops2 w id Hout Hin. apply Hout.
    rewrite session_app in Hin. now apply session_wait in Hin.
Qed.

(** C6: the wrapper never raises; it leaves a done future as it is, so it
    never gives a result to a future that is done, which is the one call
    that would raise InvalidStateError; after the future has its result,
    any further deliveries keep that result and a wait returns the same
    outcome as before them; no sequence of deliveries and waits takes the
    result away. *)
Theorem C6_resolution_is_a_latch :
  (forall state w, exists w',
     wrapper state w = (inr tt, w') /\
     (Future.done (_initial_states_received (self w)) = true ->
      _initial_states_received (self w') = _initial_states_received (self w))) /\
  (forall r w,
     Future.done (_initial_states_received (self w)) = true ->
     @set_result Payload r w = (inl InvalidStateError, w)) /\
  (forall states w r,
     _initial_states_received (self w) = Future.FINISHED r ->
     exists w',
       deliver states w = (inr tt, w') /\
       _initial_states_received (self w') = Future.FINISHED r /\
       forall timeout arrivals,
         fst (wait_for_initial_states timeout arrivals w') = inr tt /\
         fst (wait_for_initial_states timeout arrivals w) = inr tt) /\
  (forall ops w r,
     _initial_states_received (self w) = Future.FINISHED r ->
     _initial_states_received (self (session ops w)) = Future.FINISHED r).
Proof.
  split; [|split; [|split]]; [| | |exact session_latch].
  - intros state w.
    destruct (wrapper_total state w) as [w' E]. exists w'. split; [assumption|].
    intros Hdone. apply (wrapper_latch state) in Hdone. now rewrite E in Hdone.
  - intros r w. unfold set_result, bind, get, lift.
    destruct (_initial_states_received (self w)); [discriminate| |]; reflexivity.
  - intros states w r Hr. destruct (deliver_total states w) as [w' E].
    pose proof (deliver_latch states w r Hr) as Hr'. rewrite E in Hr'. simpl in Hr'.
    exists w'. repeat split; [assumption|assumption| |];
      unfold wait_for_initial_states;
      now erewrite wait_for_finished by eassumption.
Qed.

(** C7: with (1,10) and (1,11) awaited and states arriving for (1,11),
    (1,10) and (1,10) again, nothing is forwarded after the first two
    calls, the third state alone is forwarded, initial_states ends with
    the first payload under 11 and the second under 10, and the future
    gets its result in the second call, not before. *)
Theorem C7_scenario entities (p1 p2 p3 : Payload) :
  stateful_ids entities = {[ (1, 10); (1, 11) ]} ->
  let e1 := EntityState.mk 1 11 p1 in
  let e2 := EntityState.mk 1 10 p2 in
  let e3 := EntityState.mk 1 10 p3 in
  exists h w1 w2 w3,
    __init__ true entities = inr h /\
    _initial_states_received h = Future.PENDING /\
    wrapper e1 (fresh h) = (inr tt, w1) /\
    calls w1 = [] /\
    _initial_states_received (self w1) = Future.PENDING /\
    wrapper e2 w1 = (inr tt, w2) /\
    calls w2 = [] /\
    _initial_states_received (self w2) = Future.FINISHED true /\
    wrapper e3 w2 = (inr tt, w3) /\
    calls w3 = [e3] /\
    _initial_states_received (self w3) = Future.FINISHED true /\
    _wait_initial_states (self w3) = ∅ /\
    initial_states (self w3) = <[10 := e2]> (<[11 := e1]> ∅).
Proof.
  intros HW e1 e2 e3. rewrite init_eq, HW.
  assert (({[ (1, 10); (1, 11) ]} : gset (Z * Z)) ≠ ∅) as Hne by set_solver.
  assert (({[ (1, 10); (1, 11) ]} : gset (Z * Z)) ∖ {[ (1, 11) ]} ≠ ∅) as Hne1.
  { intros Hempty. assert ((1, 10) ∈ (∅ : gset (Z * Z))) as Hin; [|set_solver].
    rewrite <- Hempty. set_solver. }
  assert (({[ (1, 10); (1, 11) ]} : gset (Z * Z)) ∖ {[ (1, 11) ]} ∖ {[ (1, 10) ]} = ∅)
    as Hempty2 by set_solver.
  rewrite (bool_decide_eq_false_2 _ Hne).
  set (by_id := entities_by_id entities).
  exists (Helper {[ (1, 10); (1, 11) ]} by_id ∅ Future.PENDING).
  exists (MkWorld (Helper ({[ (1, 10); (1, 11) ]} ∖ {[ (1, 11) ]}) by_id
                     (<[11 := e1]> ∅) Future.PENDING) []).
  exists (MkWorld (Helper ∅ by_id (<[10 := e2]> (<[11 := e1]> ∅))
                     (Future.FINISHED true)) []).
  exists (MkWorld (Helper ∅ by_id (<[10 := e2]> (<[11 := e1]> ∅))
                     (Future.FINISHED true)) [e3]).
  repeat split.
  - rewrite wrapper_swallow by (simpl; set_solver). simpl.
    now rewrite (bool_decide_eq_false_2 _ Hne1).
  - rewrite wrapper_swallow by (simpl; set_solver). simpl.
    change (state_id e2) with ((1, 10) : Z * Z).
    now rewrite Hempty2, bool_decide_eq_true_2.
  - rewrite wrapper_forward by (simpl; set_solver). reflexivity.
Qed.

(** C8: a wait called without a timeout waits 5 seconds; when the
    deadline passes with identities still awaited, TimeoutError is what
    the caller of the wait gets. *)
Theorem C8_default_timeout_and_propagation :
  (forall arrivals w,
     @wait_for_initial_states Payload None arrivals w
       = wait_for_initial_states (Some 5%Q) arrivals w) /\
  (forall timeout arrivals w,
     _initial_states_received (self w) = Future.PENDING ->
     _wait_initial_states
       (self (snd (deliver (due (default 5%Q timeout) arrivals) w))) ≠ ∅ ->
     fst (wait_for_initial_states timeout arrivals w) = inl TimeoutError).
Proof.
  split; [reflexivity|].
  intros timeout arrivals w Hfut Hleft. unfold wait_for_initial_states.
  now apply wait_for_timeout.
Qed.

(** C9: the constructor succeeds on every list of entities, also one
    where two entries have the same identity: such entries make one
    element of the awaited set, and the entity kept for an identity is
    the last entry of the list that has it. *)
Theorem C9_duplicate_identities entities :
  exists h,
    @__init__ Payload true entities = inr h /\
    size (_wait_initial_states h)
      = length (remove_dups
                  (info_id <$>
                   filter (fun e => EntityInfo.isinstance_ButtonInfo e = false) entities)) /\
    (forall id,
       _entities_by_id h !! id = last (filter (fun e => info_id e = id) entities)) /\
    (forall l1 e1 l2 e2 l3,
       entities = l1 ++ e1 :: l2 ++ e2 :: l3 ->
       info_id e1 = info_id e2 ->
       (forall e, e ∈ l3 -> info_id e ≠ info_id e2) ->
       _entities_by_id h !! info_id e2 = Some e2).
Proof.
  rewrite init_eq. eexists. split; [reflexivity|]. simpl. split; [|split].
  - apply size_list_to_set_remove_dups.
  - apply entities_by_id_lookup.
  - intros l1 e1 l2 e2 l3 -> Hsame Hlast.
    rewrite entities_by_id_lookup.
    replace (l1 ++ e1 :: l2 ++ e2 :: l3) with ((l1 ++ e1 :: l2) ++ e2 :: l3)
      by now rewrite <- app_assoc.
    rewrite filter_app, filter_cons_True by reflexivity.
    assert (filter (fun e => info_id e = info_id e2) l3 = []) as ->.
    { destruct (filter _ l3) as [|e l] eqn:Hf; [reflexivity|].
      assert (e ∈ filter (fun e => info_id e = info_id e2) l3) as Hin
        by (rewrite Hf; left).
      apply list_elem_of_filter in Hin as [Heq Hin]. now apply Hlast in Hin. }
    apply last_snoc.
Qed.

(** C10: in every world of a session where the future has its result,
    initial_states has an entry under the key of every stateful entity of
    the inventory. *)
Theorem C10_coverage_at_resolution entities w r :
  reachable entities w ->
  _initial_states_received (self w) = Future.FINISHED r ->
  forall e, e ∈ entities -> EntityInfo.isinstance_ButtonInfo e = false ->
    is_Some (initial_states (self w) !! EntityInfo.key e).
Proof.
  intros Hreach Hr e He Hstateful.
  destruct (invariant_reachable _ _ Hreach) as [_ _ Hfin _ Hcov].
  destruct (Hfin r Hr) as [Hempty _].
  destruct (Hcov (info_id e)) as [Hin|Hsome].
  - apply stateful_ids_spec. eauto.
  - rewrite Hempty in Hin. set_solver.
  - exact Hsome.
Qed.

End Claims.

(** * Closed instances *)

(** The store under a key that two awaited identities share is replaced
    by the second arrival: the first-write-wins reading fails. *)
Lemma C2_counterexample :
  __init__ true shared_key_entities = inr (helper_of shared_key_entities Future.PENDING) /\
  ~ first_write_wins
      (snd (wrapper (state_of 1 10 "first")
              (fresh (helper_of shared_key_entities Future.PENDING))))
      (state_of 2 10 "second").
Proof.
  split; [vm_compute; reflexivity|].
  intros Hfirst.
  assert (initial_states
            (self (snd (wrapper (state_of 2 10 "second")
                          (snd (wrapper (state_of 1 10 "first")
                                  (fresh (helper_of shared_key_entities Future.PENDING)))))))
            !! 10 = Some (state_of 1 10 "first")) as Hkept.
  { apply Hfirst; vm_compute; reflexivity. }
  vm_compute in Hkept. discriminate Hkept.
Qed.

Lemma C1_witness :
  exists h w',
    __init__ true sample_entities = inr h /\
    deliver [state_of 1 11 "on"; state_of 1 10 "21.5"] (fresh h) = (inr tt, w') /\
    _wait_initial_states (self w') = ∅ /\
    _initial_states_received (self w') = Future.FINISHED true /\
    calls w' = [].
Proof.
  apply (C1_one_event_per_identity sample_entities
           [state_of 1 11 "on"; state_of 1 10 "21.5"]).
  - apply (bool_decide_unpack _). vm_compute. exact I.
  - vm_compute. reflexivity.
Defined.

Lemma C2_witness :
  state_id (state_of 1 10 "first")
    ∈ _wait_initial_states (self (fresh (helper_of shared_key_entities Future.PENDING))) /\
  (initial_states
     (self (snd (deliver [state_of 1 10 "first"; state_of 2 10 "second"]
                   (fresh (helper_of shared_key_entities Future.PENDING)))))
     !! 10) = Some (state_of 2 10 "second").
Proof.
  assert (state_id (state_of 1 10 "first")
            ∈ _wait_initial_states
                (self (fresh (helper_of shared_key_entities Future.PENDING)))) as Hin
    by (vm_compute; reflexivity).
  split; [exact Hin|].
  apply (proj2 (C2_last_write_wins (state_of 1 10 "first")
                  (fresh (helper_of shared_key_entities Future.PENDING)) Hin)).
  - vm_compute. reflexivity.
  - vm_compute. discriminate.
  - reflexivity.
Defined.

Lemma C3_witness :
  (state_id (state_of 1 12 "pressed")
     ∉ _wait_initial_states (self (fresh (helper_of sample_entities Future.PENDING)))) /\
  exists w',
    wrapper (state_of 1 12 "pressed") (fresh (helper_of sample_entities Future.PENDING))
      = (inr tt, w') /\
    calls w' = [state_of 1 12 "pressed"] /\
    self w' = helper_of sample_entities Future.PENDING.
Proof.
  assert (state_id (state_of 1 12 "pressed")
            ∉ _wait_initial_states
                (self (fresh (helper_of sample_entities Future.PENDING)))) as Hout
    by (vm_compute; discriminate).
  split; [exact Hout|].
  destruct (C3_not_pending_is_forwarded (state_of 1 12 "pressed")
              (fresh (helper_of sample_entities Future.PENDING)) Hout)
    as (w' & Hrun & Hcalls & _ & _ & _ & Hself).
  exists w'. auto.
Defined.

Lemma C4_witness :
  exists h,
    __init__ true button_entities = inr h /\
    _initial_states_received h = Future.FINISHED true /\
    forall timeout arrivals calls0,
      wait_for_initial_states (Payload := string) timeout arrivals (MkWorld h calls0)
        = (inr tt, MkWorld h calls0).
Proof.
  apply (C4_nothing_to_wait_for button_entities).
  intros e He. unfold button_entities in He.
  apply elem_of_cons in He as [->|He]; [reflexivity|].
  apply elem_of_cons in He as [->|He]; [reflexivity|].
  now apply elem_of_nil in He.
Defined.

Lemma C5_witness :
  ((1, 11) ∉ _wait_initial_states
               (self (session [Deliver (state_of 1 11 "on")]
                        (fresh (helper_of sample_entities Future.PENDING))))) /\
  ((1, 11) ∉ _wait_initial_states
               (self (session ([Deliver (state_of 1 11 "on")]
                                 ++ [Wait None []; Deliver (state_of 1 11 "off")])
                        (fresh (helper_of sample_entities Future.PENDING))))).
Proof.
  assert ((1, 11) ∉ _wait_initial_states
                      (self (session [Deliver (state_of 1 11 "on")]
                               (fresh (helper_of sample_entities Future.PENDING)))))
    as Hgone by (vm_compute; discriminate).
  split; [exact Hgone|].
  exact (proj2 (proj2 (proj2 C5_pending_set_only_shrinks)) _ _ _ _ Hgone).
Defined.

Lemma C6_witness :
  Future.done
    (_initial_states_received
       (self (fresh (helper_of button_entities (Future.FINISHED true))))) = true /\
  exists w',
    wrapper (state_of 1 10 "21.5")
      (fresh (helper_of button_entities (Future.FINISHED true))) = (inr tt, w') /\
    _initial_states_received (self w') = Future.FINISHED true.
Proof.
  split; [reflexivity|].
  destruct (proj1 C6_resolution_is_a_latch (state_of 1 10 "21.5")
              (fresh (helper_of button_entities (Future.FINISHED true))))
    as (w' & Hrun & Hkeep).
  exists w'. split; [exact Hrun|]. exact (Hkeep eq_refl).
Defined.

Lemma C7_witness :
  exists h w1 w2 w3,
    __init__ true sample_entities = inr h /\
    wrapper (state_of 1 11 "payload1") (fresh h) = (inr tt, w1) /\
    wrapper (state_of 1 10 "payload2") w1 = (inr tt, w2) /\
    wrapper (state_of 1 10 "payload3") w2 = (inr tt, w3) /\
    calls w3 = [state_of 1 10 "payload3"] /\
    initial_states (self w3)
      = <[10 := state_of 1 10 "payload2"]> (<[11 := state_of 1 11 "payload1"]> ∅).
Proof.
  assert (stateful_ids sample_entities = {[ (1, 10); (1, 11) ]}) as Htracked
    by (vm_compute; reflexivity).
  destruct (C7_scenario sample_entities "payload1" "payload2" "payload3" Htracked)
    as (h & w1 & w2 & w3 & Hh & _ & H1 & _ & _ & H2 & _ & _ & H3 & Hc & _ & _ & Hs).
  exists h, w1, w2, w3. repeat split; assumption.
Defined.

Lemma C8_witness :
  fst (wait_for_initial_states None
         [(1 # 2, state_of 1 11 "on"); (6 # 1, state_of 1 10 "21.5")]
         (fresh (helper_of sample_entities Future.PENDING)))
    = inl TimeoutError.
Proof.
  apply (proj2 C8_default_timeout_and_propagation).
  - reflexivity.
  - vm_compute. discriminate.
Defined.

Lemma C9_witness :
  exists h,
    __init__ (Payload := string) true duplicate_entities = inr h /\
    size (_wait_initial_states h) = 2%nat /\
    _entities_by_id h !! (1, 10) = Some (sensor 1 10 "new_name").
Proof.
  destruct (C9_duplicate_identities (Payload := string) duplicate_entities)
    as (h & Hh & Hsize & _ & Hlast).
  exists h. split; [exact Hh|]. split; [exact Hsize|].
  apply (Hlast [] (sensor 1 10 "old_name") [sensor 1 11 "humidity"]
           (sensor 1 10 "new_name") []).
  - reflexivity.
  - reflexivity.
  - intros e He. now apply elem_of_nil in He.
Defined.

Lemma C10_witness :
  is_Some
    (initial_states
       (self (session [Deliver (state_of 1 11 "on"); Deliver (state_of 1 10 "21.5")]
                (fresh (helper_of sample_entities Future.PENDING))))
     !! EntityInfo.key (sensor 1 10 "temperature")).
Proof.
  apply (C10_coverage_at_resolution sample_entities _ true).
  - apply reachable_session. vm_compute. reflexivity.
  - vm_compute. reflexivity.
  - left.
  - reflexivity.
Defined.

(** * build_key_to_entity_mapping *)

Lemma append_cons c s t : String c s +:+ t = String c (s +:+ t).
Proof. reflexivity. Qed.

Lemma append_nil t : "" +:+ t = t.
Proof. reflexivity. Qed.

Lemma prefix_spec needle hay :
  String.prefix needle hay = true <-> exists after, hay = needle +:+ after.
Proof.
  revert hay. induction needle as [|a needle IH]; intros hay.
  - destruct hay; split; eauto.
  - destruct hay as [|b hay]; cbn [String.prefix].
    + split; [discriminate|]. intros [after Hafter]. discriminate.
    + destruct (ascii_dec a b) as [->|Hne].
      * rewrite IH. split; intros [after Hafter]; exists after.
        -- rewrite append_cons. now rewrite Hafter.
        -- rewrite append_cons in Hafter. now injection Hafter.
      * split; [discriminate|]. intros [after Hafter].
        rewrite append_cons in Hafter. congruence.
Qed.

(** [contains] is the substring test. *)
Lemma contains_spec needle hay :
  contains needle hay = true <->
  exists before after, hay = before +:+ needle +:+ after.
Proof.
  induction hay as [|b hay IH]; cbn [contains].
  - rewrite orb_false_r, prefix_spec. split.
    + intros [after ->]. now exists "", after.
    + intros (before & after & Heq). destruct before; [eauto|discriminate].
  - rewrite orb_true_iff, prefix_spec, IH. split.
    + intros [[after Hafter]|(before & after & ->)].
      * now exists "", after.
      * now exists (String b before), after.
    + intros (before & after & Heq). destruct before as [|c before].
      * left. eauto.
      * right. rewrite append_cons in Heq. injection Heq as -> ->. eauto.
Qed.

Lemma answers_to_contains entity entity_name :
  answers_to entity entity_name <->
  contains entity_name (lower (EntityInfo.object_id entity)) = true.
Proof. unfold answers_to. now rewrite contains_spec. Qed.

(** The inner loop either stores the first name that occurs, or, when no
    name occurs, stores nothing. *)
Lemma scan_entity_names_cases key obj_id entity_names (d : gmap Z string) :
  (scan_entity_names key obj_id entity_names d = d /\
   forall m, m ∈ entity_names -> contains m obj_id = false) \/
  (exists ns1 n ns2,
     entity_names = ns1 ++ n :: ns2 /\
     contains n obj_id = true /\
     (forall m, m ∈ ns1 -> contains m obj_id = false) /\
     scan_entity_names key obj_id entity_names d = <[key := n]> d).
Proof.
  induction entity_names as [|n names IH]; simpl.
  - left. split; [reflexivity|]. intros m Hm. now apply elem_of_nil in Hm.
  - destruct (contains n obj_id) eqn:Hn.
    + right. exists [], n, names. repeat split; try assumption.
      intros m Hm. now apply elem_of_nil in Hm.
    + destruct IH as [[Hsame Hnone]|(ns1 & n' & ns2 & -> & Hhit & Hmiss & Hscan)].
      * left. split; [assumption|].
        intros m [->|Hm]%elem_of_cons; [assumption|now apply Hnone].
      * right. exists (n :: ns1), n', ns2. repeat split; try assumption.
        intros m [->|Hm]%elem_of_cons; [assumption|now apply Hmiss].
Qed.

Lemma build_snoc entities entity entity_names :
  build_key_to_entity_mapping (entities ++ [entity]) entity_names =
    scan_entity_names (EntityInfo.key entity) (lower (EntityInfo.object_id entity))
      entity_names (build_key_to_entity_mapping entities entity_names).
Proof. unfold build_key_to_entity_mapping. now rewrite foldl_app. Qed.

Lemma scan_entity_names_union key obj_id entity_names (d1 d2 : gmap Z string) :
  scan_entity_names key obj_id entity_names (d1 ∪ d2) =
    scan_entity_names key obj_id entity_names d1 ∪ d2.
Proof.
  induction entity_names as [|n names IH]; simpl; [reflexivity|].
  destruct (contains n obj_id); [|assumption].
  now rewrite insert_union_l.
Qed.

Lemma lower_char_not_upper c : is_upper (lower_char c) = false.
Proof. destruct c as [[] [] [] [] [] [] [] []]; reflexivity. Qed.

Lemma lower_has_no_upper s : has_upper (lower s) = false.
Proof.
  induction s as [|c s IH]; simpl; [reflexivity|].
  now rewrite lower_char_not_upper, IH.
Qed.

Lemma has_upper_append s t : has_upper (s +:+ t) = has_upper s || has_upper t.
Proof.
  induction s as [|c s IH]; [reflexivity|].
  rewrite append_cons. simpl. now rewrite IH, orb_assoc.
Qed.

Lemma lower_idempotent s : lower (lower s) = lower s.
Proof.
  induction s as [|c s IH]; simpl; [reflexivity|]. rewrite IH. f_equal.
  destruct c as [[] [] [] [] [] [] [] []]; reflexivity.
Qed.

Lemma mapping_sound_aux entities entity_names key entity_name :
  build_key_to_entity_mapping entities entity_names !! key = Some entity_name ->
  entity_name ∈ entity_names /\
  exists entity,
    entity ∈ entities /\ EntityInfo.key entity = key /\
    answers_to entity entity_name.
Proof.
  revert entity_name. induction entities as [|e entities IH] using rev_ind;
    intros entity_name.
  - unfold build_key_to_entity_mapping. simpl. now rewrite lookup_empty.
  - rewrite build_snoc.
    destruct (scan_entity_names_cases (EntityInfo.key e)
                (lower (EntityInfo.object_id e)) entity_names
                (build_key_to_entity_mapping entities entity_names))
      as [[-> _]|(ns1 & n & ns2 & Hnames & Hhit & _ & ->)].
    + intros Hk. destruct (IH _ Hk) as (Hin & e' & He' & Hkey & Hans).
      split; [assumption|]. exists e'. rewrite elem_of_app. auto.
    + rewrite lookup_insert. case_decide as Hkey.
      * intros [= <-]. split.
        -- rewrite Hnames, elem_of_app, elem_of_cons. auto.
        -- exists e. rewrite elem_of_app, list_elem_of_singleton.
           repeat split; auto. now apply answers_to_contains.
      * intros Hk. destruct (IH _ Hk) as (Hin & e' & He' & Hkey' & Hans).
        split; [assumption|]. exists e'. rewrite elem_of_app. auto.
Qed.

Lemma mapping_domain_aux entities entity_names key :
  key ∈ dom (build_key_to_entity_mapping entities entity_names) <->
  exists entity entity_name,
    entity ∈ entities /\ EntityInfo.key entity = key /\
    entity_name ∈ entity_names /\ answers_to entity entity_name.
Proof.
  rewrite elem_of_dom. split.
  - intros [n Hn]. revert n Hn.
    induction entities as [|e entities IH] using rev_ind; intros n.
    + unfold build_key_to_entity_mapping. simpl. now rewrite lookup_empty.
    + rewrite build_snoc.
      destruct (scan_entity_names_cases (EntityInfo.key e)
                  (lower (EntityInfo.object_id e)) entity_names
                  (build_key_to_entity_mapping entities entity_names))
        as [[-> _]|(ns1 & m & ns2 & Hnames & Hhit & _ & ->)].
      * intros Hk. destruct (IH _ Hk) as (e' & n' & He' & Hrest).
        exists e', n'. rewrite elem_of_app. auto.
      * rewrite lookup_insert. case_decide as Hkey.
        -- intros _. exists e, m. rewrite elem_of_app, list_elem_of_singleton.
           repeat split; auto.
           ++ rewrite Hnames, elem_of_app, elem_of_cons. auto.
           ++ now apply answers_to_contains.
        -- intros Hk. destruct (IH _ Hk) as (e' & n' & He' & Hrest).
           exists e', n'. rewrite elem_of_app. auto.
  - intros (e & n & He & Hkey & Hn & Hans).
    induction entities as [|e' entities IH] using rev_ind.
    + now apply elem_of_nil in He.
    + rewrite build_snoc.
      destruct (scan_entity_names_cases (EntityInfo.key e')
                  (lower (EntityInfo.object_id e')) entity_names
                  (build_key_to_entity_mapping entities entity_names))
        as [[-> Hnone]|(ns1 & m & ns2 & Hnames & Hhit & _ & ->)].
      * apply elem_of_app in He as [He|He]; [auto|].
        apply list_elem_of_singleton in He as ->.
        apply answers_to_contains in Hans. rewrite (Hnone n Hn) in Hans.
        discriminate.
      * rewrite lookup_insert. case_decide; [eauto|].
        apply elem_of_app in He as [He|He]; [auto|].
        apply list_elem_of_singleton in He as ->. contradiction.
Qed.




(** X4: the mapping of a concatenated list is the mapping of the second
    part laid over the mapping of the first part. *)
Theorem X4_mapping_append es1 es2 entity_names :
  build_key_to_entity_mapping (es1 ++ es2) entity_names =
    build_key_to_entity_mapping es2 entity_names
      ∪ build_key_to_entity_mapping es1 entity_names.
Proof.
  induction es2 as [|e es2 IH] using rev_ind.
  - rewrite app_nil_r. unfold build_key_to_entity_mapping at 2. simpl.
    now rewrite (left_id ∅ (∪)).
  - now rewrite app_assoc, !build_snoc, IH, scan_entity_names_union.
Qed.

(** X5: an object id is put to lower case and a name is not, so a name
    with an upper-case letter is never given to any key. *)
Theorem X5_mapping_upper_case_name_unused entities entity_names key entity_name :
  has_upper entity_name = true ->
  build_key_to_entity_mapping entities entity_names !! key <> Some entity_name.
Proof.
  intros Hup Hk. apply mapping_sound_aux in Hk as (_ & e & _ & _ & before & after & Heq).
  pose proof (lower_has_no_upper (EntityInfo.object_id e)) as Hlow.
  rewrite Heq, !has_upper_append, Hup in Hlow.
  now rewrite orb_true_r in Hlow.
Qed.

(** X6: the empty name occurs in every object id, so with it among the
    names every entity has its key in the mapping. *)
Theorem X6_mapping_empty_name_takes_all entities entity_names :
  "" ∈ entity_names ->
  dom (build_key_to_entity_mapping entities entity_names)
    = list_to_set (EntityInfo.key <$> entities).
Proof.
  intros Hempty. apply set_eq. intros key.
  rewrite mapping_domain_aux, elem_of_list_to_set, list_elem_of_fmap. split.
  - intros (e & n & He & Hkey & _). eauto.
  - intros (e & -> & He). exists e, "". repeat split; try assumption.
    exists "", (lower (EntityInfo.object_id e)). reflexivity.
Qed.

(** * More on InitialStateHelper *)

Section HelperRuns.
Context {Payload : Type}.
Implicit Types (w : @World Payload) (h : @InitialStateHelper Payload).
Implicit Types (state : EntityState.t Payload) (entities : list EntityInfo.t).
Implicit Types (states : list (EntityState.t Payload)).

(** With no wait in between, the future tells whether the set is empty. *)
Lemma wrapper_settled state w :
  _initial_states_received (self w) =
    (if bool_decide (_wait_initial_states (self w) = ∅)
     then Future.FINISHED true else Future.PENDING) ->
  _initial_states_received (self (snd (wrapper state w))) =
    (if bool_decide (_wait_initial_states (self (snd (wrapper state w))) = ∅)
     then Future.FINISHED true else Future.PENDING).
Proof.
  intros Hfut.
  destruct (decide (state_id state ∈ _wait_initial_states (self w))) as [Hin|Hout].
  - rewrite wrapper_swallow by assumption. simpl.
    rewrite bool_decide_eq_false_2 in Hfut by set_solver.
    rewrite Hfut. simpl. now rewrite andb_true_r.
  - now rewrite wrapper_forward.
Qed.

Lemma deliver_settled states w :
  _initial_states_received (self w) =
    (if bool_decide (_wait_initial_states (self w) = ∅)
     then Future.FINISHED true else Future.PENDING) ->
  _initial_states_received (self (snd (deliver states w))) =
    (if bool_decide (_wait_initial_states (self (snd (deliver states w))) = ∅)
     then Future.FINISHED true else Future.PENDING).
Proof.
  revert w. induction states as [|state states IH]; intros w Hfut; [assumption|].
  rewrite deliver_cons. now apply IH, wrapper_settled.
Qed.

(** X7: whatever is delivered to a new helper, in whatever order, with
    repeats and with states of entities it does not track, the future has
    its result exactly when every stateful identity of the inventory is
    among the identities delivered, and is pending otherwise. *)
Theorem X7_resolved_iff_all_reported entities h states :
  __init__ true entities = inr h ->
  _initial_states_received (self (snd (deliver states (fresh h)))) =
    if bool_decide (stateful_ids entities ⊆ list_to_set (state_id <$> states))
    then Future.FINISHED true else Future.PENDING.
Proof.
  rewrite init_eq. intros [= <-].
  rewrite deliver_settled by reflexivity.
  rewrite deliver_wait. simpl.
  rewrite (bool_decide_ext
             (stateful_ids entities ∖ list_to_set (state_id <$> states) = ∅)
             (stateful_ids entities ⊆ list_to_set (state_id <$> states)));
    [reflexivity|].
  split.
  - intros Hempty id Hid.
    destruct (decide (id ∈ (list_to_set (state_id <$> states) : gset (Z * Z))));
      [assumption|].
    assert (id ∈ (∅ : gset (Z * Z))) as Habs by (rewrite <- Hempty; set_solver).
    set_solver.
  - set_solver.
Qed.

(** X8: every state delivered is either forwarded or swallowed, and as
    many are swallowed as identities leave the awaited set. *)
Theorem X8_forwarded_plus_swallowed states w :
  (length (calls (snd (deliver states w)))
     + size (_wait_initial_states (self w)) =
   length (calls w) + length states
     + size (_wait_initial_states (self (snd (deliver states w)))))%nat.
Proof.
  revert w. induction states as [|state states IH]; intros w.
  - simpl. lia.
  - rewrite deliver_cons. specialize (IH (snd (wrapper state w))).
    destruct (decide (state_id state ∈ _wait_initial_states (self w))) as [Hin|Hout].
    + rewrite wrapper_swallow in * by assumption. simpl in *.
      assert (size (_wait_initial_states (self w))
              = S (size (_wait_initial_states (self w) ∖ {[state_id state]}))) as Hsize.
      { rewrite size_difference by set_solver. rewrite size_singleton.
        assert (size (_wait_initial_states (self w)) ≠ 0%nat); [|lia].
        intros Hz. apply size_empty_iff in Hz. set_solver. }
      lia.
    + rewrite wrapper_forward in * by assumption. simpl in *.
      rewrite length_app in IH. simpl in IH. lia.
Qed.

(** X9: the user callback receives states in the order they are
    delivered: the calls made during a delivery are a subsequence of the
    states delivered, added after the calls made before. *)
Theorem X9_forwarded_in_order states w :
  exists forwarded,
    calls (snd (deliver states w)) = calls w ++ forwarded /\
    sublist forwarded states.
Proof.
  revert w. induction states as [|state states IH]; intros w.
  - exists []. simpl. rewrite app_nil_r. split; [reflexivity|constructor].
  - rewrite deliver_cons. destruct (IH (snd (wrapper state w))) as (fw & -> & Hsub).
    destruct (decide (state_id state ∈ _wait_initial_states (self w))) as [Hin|Hout].
    + rewrite wrapper_swallow by assumption. simpl.
      exists fw. split; [reflexivity|]. now apply sublist_cons.
    + rewrite wrapper_forward by assumption. simpl.
      exists (state :: fw). rewrite <- app_assoc. split; [reflexivity|].
      now apply sublist_skip.
Qed.

(** X10: only the first state of an identity can be swallowed: a state
    whose identity was already delivered earlier in the run goes to the
    user callback as it is, and the helper is not touched. *)
Theorem X10_repeat_is_forwarded states1 state1 states2 state2 w :
  state_id state1 = state_id state2 ->
  wrapper state2 (snd (deliver (states1 ++ state1 :: states2) w)) =
    (inr tt,
     MkWorld (self (snd (deliver (states1 ++ state1 :: states2) w)))
             (calls (snd (deliver (states1 ++ state1 :: states2) w)) ++ [state2])).
Proof.
  intros Hsame. apply wrapper_forward.
  rewrite deliver_wait, fmap_app, fmap_cons, Hsame. set_solver.
Qed.

(** X11: at any time of a session, a state of an identity that is not a
    stateful identity of the inventory (a button, or an entity that was
    not listed) goes to the user callback and leaves the helper as it
    is. *)
Theorem X11_untracked_always_forwarded entities w state :
  reachable entities w ->
  state_id state ∉ stateful_ids entities ->
  wrapper state w = (inr tt, MkWorld (self w) (calls w ++ [state])).
Proof.
  intros Hreach Hout. apply wrapper_forward.
  pose proof (inv_wait _ _ (invariant_reachable _ _ Hreach)). set_solver.
Qed.

(** A key of [initial_states] is written only for an awaited identity
    that has this key. *)
Lemma deliver_key_untouched states w k :
  (forall id, id ∈ _wait_initial_states (self w) -> id.2 ≠ k) ->
  initial_states (self (snd (deliver states w))) !! k = initial_states (self w) !! k.
Proof.
  revert w. induction states as [|state states IH]; intros w Hkeys; [reflexivity|].
  rewrite deliver_cons, IH.
  - destruct (decide (state_id state ∈ _wait_initial_states (self w))) as [Hin|Hout].
    + rewrite wrapper_swallow by assumption. simpl.
      apply lookup_insert_ne. exact (Hkeys _ Hin).
    + now rewrite wrapper_forward.
  - intros id. rewrite wrapper_wait. intros Hid. apply Hkeys. set_solver.
Qed.

(** X12: when no two stateful identities of the inventory have the same
    key, the state kept in initial_states under the key of a tracked
    identity is the first state delivered for that identity, whatever
    comes before and after it. *)
Theorem X12_first_report_is_kept entities h states1 state states2 :
  __init__ true entities = inr h ->
  (forall id1 id2, id1 ∈ stateful_ids entities -> id2 ∈ stateful_ids entities ->
                   id1.2 = id2.2 -> id1 = id2) ->
  state_id state ∈ stateful_ids entities ->
  (forall state', state' ∈ states1 -> state_id state' ≠ state_id state) ->
  initial_states (self (snd (deliver (states1 ++ state :: states2) (fresh h))))
    !! EntityState.key state = Some state.
Proof.
  rewrite init_eq. intros [= <-] Hkeys Htracked Hfirst.
  rewrite deliver_app, deliver_cons.
  set (w1 := snd (deliver states1 _)).
  assert (_wait_initial_states (self w1)
          = stateful_ids entities ∖ list_to_set (state_id <$> states1)) as Hw1
    by (unfold w1; now rewrite deliver_wait).
  assert (state_id state ∈ _wait_initial_states (self w1)) as Hin.
  { rewrite Hw1, elem_of_difference, elem_of_list_to_set, list_elem_of_fmap.
    split; [assumption|]. intros (state' & Heq & Hin'). now apply (Hfirst state'). }
  rewrite deliver_key_untouched.
  - rewrite wrapper_swallow by assumption. simpl. apply lookup_insert_eq.
  - intros id. rewrite wrapper_wait, Hw1. intros Hid Hkey.
    assert (id = state_id state) as ->; [|set_solver].
    apply Hkeys; [set_solver|assumption|exact Hkey].
Qed.

Lemma snapshots_reachable entities w :
  reachable entities w ->
  forall k state,
    initial_states (self w) !! k = Some state ->
    EntityState.key state = k /\
    state_id state ∈ stateful_ids entities /\
    state_id state ∉ _wait_initial_states (self w).
Proof.
  intros Hreach.
  enough (session_invariant entities w /\
          forall k state,
            initial_states (self w) !! k = Some state ->
            EntityState.key state = k /\
            state_id state ∈ stateful_ids entities /\
            state_id state ∉ _wait_initial_states (self w)) as [_ Hw] by exact Hw.
  assert (forall state0 w0,
            (session_invariant entities w0 /\
             forall k state,
               initial_states (self w0) !! k = Some state ->
               EntityState.key state = k /\
               state_id state ∈ stateful_ids entities /\
               state_id state ∉ _wait_initial_states (self w0)) ->
            (session_invariant entities (snd (wrapper state0 w0)) /\
             forall k state,
               initial_states (self (snd (wrapper state0 w0))) !! k = Some state ->
               EntityState.key state = k /\
               state_id state ∈ stateful_ids entities /\
               state_id state ∉ _wait_initial_states (self (snd (wrapper state0 w0)))))
    as Hwrap.
  { intros state0 w0 [Hinv Hsnap]. split; [now apply invariant_wrapper|].
    intros k state. rewrite wrapper_wait.
    destruct (decide (state_id state0 ∈ _wait_initial_states (self w0))) as [Hin|Hout].
    - rewrite wrapper_swallow by assumption. simpl.
      rewrite lookup_insert. case_decide as Hk.
      + intros [= <-]. repeat split; [assumption| |set_solver].
        now apply (inv_wait _ _ Hinv).
      + intros Hs. destruct (Hsnap _ _ Hs) as (? & ? & ?).
        repeat split; [assumption|assumption|set_solver].
    - rewrite wrapper_forward by assumption. simpl.
      intros Hs. destruct (Hsnap _ _ Hs) as (? & ? & ?).
      repeat split; [assumption|assumption|set_solver]. }
  induction Hreach as [h Hh|w o Hw IH].
  - split; [now apply invariant_init|].
    revert Hh. rewrite init_eq. intros [= <-]. simpl. intros k state.
    now rewrite lookup_empty.
  - destruct o as [state0|timeout arrivals]; simpl.
    + now apply Hwrap.
    + unfold wait_for_initial_states.
      apply wait_for_preserves; [exact Hwrap| |exact IH].
      intros w0 [Hinv Hsnap]. split; [now apply invariant_cancel|exact Hsnap].
Qed.

(** X13: at any time of a session, a state found in initial_states is
    filed under its own key, belongs to a stateful identity of the
    inventory, and this identity is no longer awaited. *)
Theorem X13_snapshots_are_of_reported_identities entities w k state :
  reachable entities w ->
  initial_states (self w) !! k = Some state ->
  EntityState.key state = k /\
  state_id state ∈ stateful_ids entities /\
  state_id state ∉ _wait_initial_states (self w).
Proof. intros Hreach. now apply snapshots_reachable. Qed.

(** X14: at any time of a session, once no identity is awaited the future
    is not pending, so a wait does not suspend and cannot time out: it
    returns, or raises CancelledError when an earlier wait timed out; the
    helper is left as it is. *)
Theorem X14_nothing_awaited_never_times_out entities w timeout arrivals :
  reachable entities w ->
  _wait_initial_states (self w) = ∅ ->
  (_initial_states_received (self w) = Future.FINISHED true /\
   wait_for_initial_states timeout arrivals w = (inr tt, w)) \/
  (_initial_states_received (self w) = Future.CANCELLED /\
   wait_for_initial_states timeout arrivals w = (inl CancelledError, w)).
Proof.
  intros Hreach Hempty.
  pose proof (invariant_reachable _ _ Hreach) as Hinv.
  unfold wait_for_initial_states. rewrite wait_for_eq.
  destruct (_initial_states_received (self w)) as [| |r] eqn:Hfut.
  - now destruct (inv_pending _ _ Hinv Hfut).
  - right. auto.
  - left. destruct (inv_finished _ _ Hinv r Hfut) as [_ ->]. auto.
Qed.

Lemma wait_for_returns_finished timeout arrivals w :
  fst (wait_for timeout arrivals w) = inr tt ->
  exists r, _initial_states_received (self (snd (wait_for timeout arrivals w)))
            = Future.FINISHED r.
Proof.
  revert w. induction arrivals as [|[t state] rest IH]; intros w;
    rewrite wait_for_eq;
    destruct (_initial_states_received (self w)) eqn:Hfut; simpl;
    try discriminate; eauto.
  destruct (Qle_bool timeout t); [discriminate|]. apply IH.
Qed.

(** X15: in a session where no wait has timed out, if the states that
    arrive before the deadline take every identity out of the awaited
    set, the wait returns without raising and the future has its
    result. *)
Theorem X15_wait_returns_when_all_report entities w timeout arrivals :
  reachable entities w ->
  _initial_states_received (self w) ≠ Future.CANCELLED ->
  _wait_initial_states
    (self (snd (deliver (due (default 5%Q timeout) arrivals) w))) = ∅ ->
  fst (wait_for_initial_states timeout arrivals w) = inr tt /\
  _initial_states_received (self (snd (wait_for_initial_states timeout arrivals w)))
    = Future.FINISHED true.
Proof.
  intros Hreach Hlive Hempty. unfold wait_for_initial_states.
  pose proof (invariant_reachable _ _ Hreach) as Hinv.
  pose proof (wait_for_resolved entities _ arrivals w Hinv Hempty Hlive) as Hok.
  split; [assumption|].
  destruct (wait_for_returns_finished _ _ _ Hok) as [r Hr].
  assert (session_invariant entities (snd (wait_for (default 5%Q timeout) arrivals w)))
    as Hinv' by (apply wait_for_preserves;
                 auto using invariant_wrapper, invariant_cancel).
  destruct (inv_finished _ _ Hinv' r Hr) as [_ ->]. exact Hr.
Qed.

Lemma deliver_done_latch states w :
  Future.done (_initial_states_received (self w)) = true ->
  _initial_states_received (self (snd (deliver states w)))
    = _initial_states_received (self w).
Proof.
  revert w. induction states as [|state states IH]; intros w Hdone; [reflexivity|].
  rewrite deliver_cons, IH; rewrite wrapper_latch; auto.
Qed.

(** X16: a wait that times out cancels the future for good: states that
    arrive later are still handled without raising, the future stays
    cancelled, and every later wait raises CancelledError at once, also
    when all identities have reported by then. *)
Theorem X16_after_a_timeout timeout arrivals w :
  _initial_states_received (self w) = Future.PENDING ->
  _wait_initial_states
    (self (snd (deliver (due (default 5%Q timeout) arrivals) w))) ≠ ∅ ->
  forall late,
    exists w',
      deliver late (snd (wait_for_initial_states timeout arrivals w)) = (inr tt, w') /\
      _initial_states_received (self w') = Future.CANCELLED /\
      forall timeout' arrivals',
        wait_for_initial_states timeout' arrivals' w' = (inl CancelledError, w').
Proof.
  intros Hfut Hleft late. unfold wait_for_initial_states.
  destruct (wait_for_timeout _ _ _ Hfut Hleft) as [_ Hcancelled].
  destruct (deliver_total late (snd (wait_for (default 5%Q timeout) arrivals w)))
    as [w' Hrun].
  exists w'. split; [assumption|].
  assert (_initial_states_received (self w') = Future.CANCELLED) as Hc.
  { pose proof (deliver_done_latch late
                  (snd (wait_for (default 5%Q timeout) arrivals w))) as Hlatch.
    rewrite Hrun, Hcancelled in Hlatch. now apply Hlatch. }
  split; [assumption|].
  intros timeout' arrivals'. now rewrite wait_for_eq, Hc.
Qed.

(** X17: built while no event loop runs, the helper is not made: the
    constructor raises RuntimeError, whatever the entities. *)
Theorem X17_constructor_needs_a_loop entities :
  @__init__ Payload false entities = inl RuntimeError.
Proof. apply init_no_loop. Qed.

End HelperRuns.

(** * esphome/components/network: ip_address_literal *)

Import network.

Lemma split_dots_nonempty s : split_dots s <> [].
Proof.
  destruct s as [|c s]; simpl; [discriminate|].
  destruct (Ascii.eqb c "."); [discriminate|].
  destruct (split_dots s); discriminate.
Qed.

Lemma concat_cons_cons sep x y l :
  String.concat sep (x :: y :: l) = x +:+ sep +:+ String.concat sep (y :: l).
Proof. reflexivity. Qed.

(** Joining the pieces of a split with dots gives the string back. *)
Lemma concat_split_dots s : String.concat "." (split_dots s) = s.
Proof.
  induction s as [|c s IH]; [reflexivity|]. cbn [split_dots].
  destruct (Ascii.eqb c ".") eqn:Hc.
  - apply Ascii.eqb_eq in Hc as ->.
    pose proof (split_dots_nonempty s) as Hne.
    destruct (split_dots s) as [|piece pieces]; [contradiction|].
    rewrite concat_cons_cons, IH. reflexivity.
  - pose proof (split_dots_nonempty s) as Hne.
    destruct (split_dots s) as [|piece pieces]; [contradiction|].
    destruct pieces as [|piece' pieces].
    + simpl in *. now rewrite IH.
    + rewrite concat_cons_cons in *. rewrite append_cons. now rewrite IH.
Qed.

Lemma digit_not_dot c : is_digit c = true -> Ascii.eqb c "." = false.
Proof. destruct c as [[] [] [] [] [] [] [] []]; (discriminate || reflexivity). Qed.

Lemma digit_not_slash c : is_digit c = true -> Ascii.eqb c "/" = false.
Proof. destruct c as [[] [] [] [] [] [] [] []]; (discriminate || reflexivity). Qed.

Lemma split_dots_digits p rest :
  all_digits p = true ->
  split_dots (p +:+ String "." rest) = p :: split_dots rest.
Proof.
  induction p as [|c p IH]; intros Hp.
  - reflexivity.
  - simpl in Hp. apply andb_true_iff in Hp as [Hc Hp].
    rewrite append_cons. cbn [split_dots]. rewrite (digit_not_dot c Hc), (IH Hp).
    reflexivity.
Qed.

Lemma split_dots_last p : all_digits p = true -> split_dots p = [p].
Proof.
  induction p as [|c p IH]; intros Hp; [reflexivity|].
  simpl in Hp. apply andb_true_iff in Hp as [Hc Hp].
  cbn [split_dots]. now rewrite (digit_not_dot c Hc), (IH Hp).
Qed.

Lemma contains_slash_cons c s :
  contains "/" (String c s) = Ascii.eqb "/" c || contains "/" s.
Proof.
  cbn [contains String.prefix]. destruct (ascii_dec "/" c) as [<-|Hne].
  - now destruct s.
  - apply Ascii.eqb_neq in Hne. now rewrite Hne.
Qed.

Lemma contains_slash_digits p rest :
  all_digits p = true -> contains "/" (p +:+ rest) = contains "/" rest.
Proof.
  induction p as [|c p IH]; intros Hp; [reflexivity|].
  simpl in Hp. apply andb_true_iff in Hp as [Hc Hp].
  rewrite append_cons, contains_slash_cons, (IH Hp).
  rewrite Ascii.eqb_sym, (digit_not_slash c Hc). reflexivity.
Qed.

(** The octets 0 to 255, written in decimal, are digit strings that
    [parse_octet] reads back. *)
Lemma octet_table n :
  (n < 256)%nat ->
  parse_octet (decimal (Z.of_nat n)) = Some (Z.of_nat n) /\
  all_digits (decimal (Z.of_nat n)) = true /\
  decimal (Z.of_nat n) <> "".
Proof.
  intros Hn.
  assert (forallb (fun n =>
            match parse_octet (decimal (Z.of_nat n)) with
            | Some v => Z.eqb v (Z.of_nat n)
            | None => false
            end
            && all_digits (decimal (Z.of_nat n))
            && negb (String.eqb (decimal (Z.of_nat n)) ""))
            (seq 0 256) = true) as Hall by (vm_compute; reflexivity).
  rewrite forallb_forall in Hall. specialize (Hall n).
  rewrite in_seq in Hall. specialize (Hall ltac:(lia)).
  apply andb_true_iff in Hall as [Hall Hne]. apply andb_true_iff in Hall as [Hparse Hdig].
  destruct (parse_octet _) as [v|]; [|discriminate].
  apply Z.eqb_eq in Hparse as ->. repeat split; [assumption|].
  intros Heq. rewrite Heq in Hne. discriminate.
Qed.

Lemma octet_decimal v :
  0 <= v <= 255 ->
  parse_octet (decimal v) = Some v /\ all_digits (decimal v) = true /\ decimal v <> "".
Proof.
  intros Hv. rewrite <- (Z2Nat.id v) by lia. apply octet_table. lia.
Qed.

Lemma digit_cases c :
  is_digit c = true ->
  c = "0"%char \/ c = "1"%char \/ c = "2"%char \/ c = "3"%char \/ c = "4"%char \/
  c = "5"%char \/ c = "6"%char \/ c = "7"%char \/ c = "8"%char \/ c = "9"%char.
Proof.
  destruct c as [[] [] [] [] [] [] [] []]; try discriminate; intros _; tauto.
Qed.

Ltac each_digit H :=
  apply digit_cases in H;
  destruct H as [->|[->|[->|[->|[->|[->|[->|[->|[->| ->]]]]]]]]].

Ltac read_octet H :=
  vm_compute in H;
  first [discriminate H
        |injection H as <-; split; [vm_compute; reflexivity|lia]].

(** What [parse_octet] accepts is the decimal text of the octet it
    returns: nothing else reads as an octet. *)
Lemma parse_octet_inv s v :
  parse_octet s = Some v -> s = decimal v /\ 0 <= v <= 255.
Proof.
  intros H. pose proof H as H0. unfold parse_octet in H0.
  destruct (String.eqb s ""); [discriminate|].
  destruct (all_digits s) eqn:Hd; [|discriminate]. simpl in H0.
  destruct (3 <? String.length s)%nat eqn:Hl; [discriminate|]. clear H0.
  destruct s as [|c1 [|c2 [|c3 [|c4 s]]]]; simpl in Hd, Hl.
  - discriminate H.
  - rewrite andb_true_r in Hd. each_digit Hd; read_octet H.
  - rewrite andb_true_r in Hd. apply andb_true_iff in Hd as [H1 H2].
    each_digit H1; each_digit H2; read_octet H.
  - rewrite andb_true_r in Hd. apply andb_true_iff in Hd as [H1 Hd].
    apply andb_true_iff in Hd as [H2 H3].
    each_digit H1; each_digit H2; each_digit H3; read_octet H.
  - discriminate Hl.
Qed.

Lemma packed_from_bytes a b c d :
  0 <= a <= 255 -> 0 <= b <= 255 -> 0 <= c <= 255 -> 0 <= d <= 255 ->
  packed (from_bytes_big [a; b; c; d]) = [a; b; c; d].
Proof.
  intros Ha Hb Hc Hd. unfold packed, from_bytes_big. simpl.
  change (2 ^ 24) with 16777216. change (2 ^ 16) with 65536. change (2 ^ 8) with 256.
  repeat f_equal; Z.div_mod_to_equations; lia.
Qed.

Lemma dotted_eq a b c d :
  dotted a b c d =
    decimal a +:+ String "." (decimal b +:+ String "." (decimal c +:+ String "." (decimal d))).
Proof. reflexivity. Qed.

Lemma append_empty_r s : s +:+ "" = s.
Proof. induction s as [|c s IH]; [reflexivity|]. now rewrite append_cons, IH. Qed.

Lemma ipv4_of_dotted a b c d :
  0 <= a <= 255 -> 0 <= b <= 255 -> 0 <= c <= 255 -> 0 <= d <= 255 ->
  IPv4Address (IpStr (dotted a b c d)) = Some (from_bytes_big [a; b; c; d]).
Proof.
  intros Ha Hb Hc Hd.
  destruct (octet_decimal a Ha) as (Pa & Da & Na).
  destruct (octet_decimal b Hb) as (Pb & Db & _).
  destruct (octet_decimal c Hc) as (Pc & Dc & _).
  destruct (octet_decimal d Hd) as (Pd & Dd & _).
  unfold IPv4Address. rewrite dotted_eq.
  assert (contains "/" (decimal a +:+ String "." (decimal b +:+ String "."
            (decimal c +:+ String "." (decimal d)))) = false) as ->.
  { rewrite (contains_slash_digits _ _ Da), contains_slash_cons.
    rewrite (contains_slash_digits _ _ Db), contains_slash_cons.
    rewrite (contains_slash_digits _ _ Dc), contains_slash_cons.
    rewrite <- (append_empty_r (decimal d)), (contains_slash_digits _ _ Dd).
    reflexivity. }
  assert (String.eqb (decimal a +:+ String "." (decimal b +:+ String "."
            (decimal c +:+ String "." (decimal d)))) "" = false) as ->.
  { destruct (decimal a); [contradiction|reflexivity]. }
  rewrite !split_dots_digits, split_dots_last by assumption.
  simpl. rewrite Pa, Pb, Pc, Pd. reflexivity.
Qed.

(** X18: the dotted decimal text of four octets is turned into the call
    with these four octets, so no text is left to parse at run time. *)
Theorem X18_dotted_quad_to_octets a b c d :
  0 <= a <= 255 -> 0 <= b <= 255 -> 0 <= c <= 255 -> 0 <= d <= 255 ->
  ip_address_literal (IpStr (dotted a b c d)) = IPAddress_octets a b c d.
Proof.
  intros Ha Hb Hc Hd. unfold ip_address_literal.
  rewrite ipv4_of_dotted, packed_from_bytes by assumption. reflexivity.
Qed.

Lemma ipv4_of_string_inv s n :
  IPv4Address (IpStr s) = Some n ->
  exists a b c d,
    0 <= a <= 255 /\ 0 <= b <= 255 /\ 0 <= c <= 255 /\ 0 <= d <= 255 /\
    s = dotted a b c d /\ n = from_bytes_big [a; b; c; d].
Proof.
  unfold IPv4Address.
  destruct (contains "/" s); [discriminate|].
  destruct (String.eqb s ""); [discriminate|].
  pose proof (concat_split_dots s) as Hjoin.
  destruct (split_dots s) as [|o1 [|o2 [|o3 [|o4 [|o5 rest]]]]]; try discriminate.
  simpl.
  destruct (parse_octet o1) as [a|] eqn:H1; [|discriminate].
  destruct (parse_octet o2) as [b|] eqn:H2; [|discriminate].
  destruct (parse_octet o3) as [c|] eqn:H3; [|discriminate].
  destruct (parse_octet o4) as [d|] eqn:H4; [|discriminate].
  simpl. intros [= <-].
  apply parse_octet_inv in H1 as [-> Ha], H2 as [-> Hb], H3 as [-> Hc], H4 as [-> Hd].
  exists a, b, c, d. repeat split; try lia. now rewrite <- Hjoin.
Qed.

(** X19: for a string, the four-octet call is generated only when the
    string is the dotted decimal text of these octets, each from 0 to
    255; every other string (a host name, an IPv6 address, an octet with
    a leading zero) is passed as it is to the string constructor. *)
Theorem X19_only_canonical_quads_converted s :
  ip_address_literal (IpStr s) = IPAddress_str s \/
  exists a b c d,
    0 <= a <= 255 /\ 0 <= b <= 255 /\ 0 <= c <= 255 /\ 0 <= d <= 255 /\
    s = dotted a b c d /\
    ip_address_literal (IpStr s) = IPAddress_octets a b c d.
Proof.
  unfold ip_address_literal.
  destruct (IPv4Address (IpStr s)) as [n|] eqn:Hn; [|now left].
  right. apply ipv4_of_string_inv in Hn as (a & b & c & d & Ha & Hb & Hc & Hd & -> & ->).
  exists a, b, c, d. rewrite packed_from_bytes by assumption. auto 10.
Qed.


(** X21: whatever the argument, the integers of a four-octet call are
    bytes. *)
Theorem X21_octets_are_bytes ip a b c d :
  ip_address_literal ip = IPAddress_octets a b c d ->
  0 <= a <= 255 /\ 0 <= b <= 255 /\ 0 <= c <= 255 /\ 0 <= d <= 255.
Proof.
  unfold ip_address_literal.
  assert (forall n,
            match packed n with
            | [o0; o1; o2; o3] => IPAddress_octets o0 o1 o2 o3
            | _ => IPAddress_str (str ip)
            end = IPAddress_octets a b c d ->
            0 <= a <= 255 /\ 0 <= b <= 255 /\ 0 <= c <= 255 /\ 0 <= d <= 255) as Hpacked.
  { intros n. unfold packed. intros [= <- <- <- <-].
    repeat split; Z.div_mod_to_equations; lia. }
  destruct ip as [|s|n].
  - intros [= <- <- <- <-]. lia.
  - destruct (IPv4Address (IpStr s)); [apply Hpacked|discriminate].
  - destruct (IPv4Address (IpInt n)); [apply Hpacked|discriminate].
Qed.

(** * esphome/components/network: to_code *)

Ltac all_platforms CORE config :=
  destruct CORE as [[] [] [] [] [] []];
  destruct config as [[[]|] [n|]].

(** X22: sdkconfig options are set only on ESP32 and only when the IPv6
    option is in the configuration; build flags are added only off ESP32
    and only when IPv6 is enabled; so one run never does both. *)
Theorem X22_sdkconfig_and_build_flags_apart CORE config :
  let made := snd (to_code CORE config []) in
  (existsb is_sdkconfig made = true ->
   is_esp32 CORE = true /\ enable_ipv6 config <> None) /\
  (existsb is_build_flag made = true ->
   is_esp32 CORE = false /\ enable_ipv6 config = Some true) /\
  existsb is_sdkconfig made && existsb is_build_flag made = false.
Proof.
  all_platforms CORE config; vm_compute;
    repeat split; (discriminate || reflexivity || auto).
Qed.

(** X23: the one failure of [to_code] is the KeyError of the subscript:
    it is raised exactly when IPv6 is enabled and the minimum address
    count is missing from the configuration, and by then USE_NETWORK and
    USE_NETWORK_IPV6 are already defined. *)
Theorem X23_key_error_iff_count_missing CORE config :
  (fst (to_code CORE config []) = inr tt \/
   fst (to_code CORE config []) = inl KeyError) /\
  (fst (to_code CORE config []) = inl KeyError <->
   enable_ipv6 config = Some true /\ min_ipv6_addr_count config = None) /\
  (fst (to_code CORE config []) = inl KeyError ->
   add_define "USE_NETWORK" NoValue ∈ snd (to_code CORE config []) /\
   add_define "USE_NETWORK_IPV6" (BoolValue true) ∈ snd (to_code CORE config [])).
Proof.
  all_platforms CORE config; vm_compute;
    (split; [auto|split; [split; [try discriminate; auto|intros [? ?]; congruence]|]]);
    try discriminate; intros _; split; repeat constructor.
Qed.

(** X24: on ESP32, whenever the IPv6 option is in the configuration and
    the run does not raise, the two LWIP options are set: to the value of
    the option under ESP-IDF, and to true under any other framework, also
    when the option is false. *)
Theorem X24_esp32_lwip_options CORE config enabled :
  is_esp32 CORE = true ->
  enable_ipv6 config = Some enabled ->
  fst (to_code CORE config []) = inr tt ->
  let value := if using_esp_idf CORE then enabled else true in
  add_idf_sdkconfig_option "CONFIG_LWIP_IPV6" value ∈ snd (to_code CORE config []) /\
  add_idf_sdkconfig_option "CONFIG_LWIP_IPV6_AUTOCONFIG" value
    ∈ snd (to_code CORE config []).
Proof.
  all_platforms CORE config; simpl; try discriminate;
    intros _ [= <-]; vm_compute; try discriminate; intros _;
    split; repeat constructor.
Qed.

(** X25: USE_NETWORK_MIN_IPV6_ADDR_COUNT is defined exactly when IPv6 is
    enabled, and with the count of the configuration. *)
Theorem X25_min_count_defined_iff_enabled CORE config n :
  add_define "USE_NETWORK_MIN_IPV6_ADDR_COUNT" (IntValue n)
    ∈ snd (to_code CORE config []) <->
  enable_ipv6 config = Some true /\ min_ipv6_addr_count config = Some n.
Proof.
  destruct CORE as [[] [] [] [] [] []];
    destruct config as [[[]|] [m|]];
    match goal with
    | |- _ ∈ ?run <-> _ =>
        let made := eval vm_compute in run in change run with made
    end;
    cbn [enable_ipv6 min_ipv6_addr_count];
    (split;
     [intros Hin;
      repeat match goal with
             | H : _ ∈ _ :: _ |- _ => apply elem_of_cons in H as [H|H]
             | H : _ ∈ [] |- _ => now apply elem_of_nil in H
             | H : add_define _ _ = _ |- _ => first [discriminate H|injection H as ->]
             end;
      auto
     |intros [He Hc]; try discriminate He; try discriminate Hc;
      injection Hc as ->; repeat constructor]).
Qed.

(** * Closed instances of the further properties *)




Lemma X5_witness :
  has_upper "Temp" = true /\
  build_key_to_entity_mapping sample_entities ["Temp"] !! 10 <> Some "Temp".
Proof.
  split; [reflexivity|].
  apply X5_mapping_upper_case_name_unused. reflexivity.
Defined.

Lemma X6_witness :
  dom (build_key_to_entity_mapping sample_entities ["humid"; ""])
    = list_to_set (EntityInfo.key <$> sample_entities).
Proof.
  apply X6_mapping_empty_name_takes_all. right. left.
Defined.

Lemma X7_witness :
  _initial_states_received
    (self (snd (deliver [state_of 1 10 "21.5"; state_of 1 12 "pressed";
                         state_of 1 10 "22.0"]
                  (fresh (helper_of sample_entities Future.PENDING)))))
    = Future.PENDING.
Proof.
  rewrite (X7_resolved_iff_all_reported sample_entities).
  - vm_compute. reflexivity.
  - vm_compute. reflexivity.
Defined.

Lemma X10_witness :
  wrapper (state_of 1 10 "22.0")
    (snd (deliver ([] ++ state_of 1 10 "21.5" :: [state_of 1 11 "on"])
            (fresh (helper_of sample_entities Future.PENDING))))
  = (inr tt,
     MkWorld
       (self (snd (deliver ([] ++ state_of 1 10 "21.5" :: [state_of 1 11 "on"])
                     (fresh (helper_of sample_entities Future.PENDING)))))
       (calls (snd (deliver ([] ++ state_of 1 10 "21.5" :: [state_of 1 11 "on"])
                      (fresh (helper_of sample_entities Future.PENDING))))
          ++ [state_of 1 10 "22.0"])).
Proof.
  apply (X10_repeat_is_forwarded [] (state_of 1 10 "21.5") [state_of 1 11 "on"]
           (state_of 1 10 "22.0")).
  reflexivity.
Defined.

Lemma X11_witness :
  wrapper (state_of 1 12 "pressed") (fresh (helper_of sample_entities Future.PENDING))
  = (inr tt,
     MkWorld (helper_of sample_entities Future.PENDING) [state_of 1 12 "pressed"]).
Proof.
  apply (X11_untracked_always_forwarded sample_entities
           (fresh (helper_of sample_entities Future.PENDING))
           (state_of 1 12 "pressed")).
  - apply reach_init. vm_compute. reflexivity.
  - vm_compute. discriminate.
Defined.

Lemma X12_witness :
  initial_states
    (self (snd (deliver ([state_of 1 12 "pressed"] ++ state_of 1 10 "21.5"
                           :: [state_of 1 10 "22.0"; state_of 1 11 "on"])
                  (fresh (helper_of sample_entities Future.PENDING)))))
    !! EntityState.key (state_of 1 10 "21.5") = Some (state_of 1 10 "21.5").
Proof.
  assert (stateful_ids sample_entities = {[ (1, 10); (1, 11) ]}) as Htracked
    by (vm_compute; reflexivity).
  apply (X12_first_report_is_kept sample_entities).
  - vm_compute. reflexivity.
  - rewrite Htracked. intros [d1 k1] [d2 k2] H1 H2 Hk. simpl in Hk. subst k2.
    apply elem_of_union in H1 as [H1|H1]; apply elem_of_singleton in H1;
      apply elem_of_union in H2 as [H2|H2]; apply elem_of_singleton in H2;
      congruence.
  - vm_compute. reflexivity.
  - intros state' Hin. apply list_elem_of_singleton in Hin as ->. discriminate.
Defined.

Lemma X13_witness :
  EntityState.key (state_of 1 10 "21.5") = 10 /\
  state_id (state_of 1 10 "21.5") ∈ stateful_ids sample_entities /\
  state_id (state_of 1 10 "21.5")
    ∉ _wait_initial_states
        (self (session [Deliver (state_of 1 10 "21.5")]
                 (fresh (helper_of sample_entities Future.PENDING)))).
Proof.
  apply (X13_snapshots_are_of_reported_identities sample_entities).
  - apply reachable_session. vm_compute. reflexivity.
  - vm_compute. reflexivity.
Defined.

Lemma X14_witness :
  wait_for_initial_states (Some (1 # 10)) []
    (session [Deliver (state_of 1 10 "21.5"); Deliver (state_of 1 11 "on")]
       (fresh (helper_of sample_entities Future.PENDING)))
  = (inr tt,
     session [Deliver (state_of 1 10 "21.5"); Deliver (state_of 1 11 "on")]
       (fresh (helper_of sample_entities Future.PENDING))).
Proof.
  destruct (X14_nothing_awaited_never_times_out sample_entities
              (session [Deliver (state_of 1 10 "21.5"); Deliver (state_of 1 11 "on")]
                 (fresh (helper_of sample_entities Future.PENDING)))
              (Some (1 # 10)) []) as [[_ Hret]|[Hcancelled _]].
  - apply reachable_session. vm_compute. reflexivity.
  - vm_compute. reflexivity.
  - exact Hret.
  - vm_compute in Hcancelled. discriminate Hcancelled.
Defined.

Lemma X15_witness :
  fst (wait_for_initial_states None
         [(1 # 2, state_of 1 11 "on"); (3 # 1, state_of 1 10 "21.5");
          (7 # 1, state_of 1 10 "22.0")]
         (fresh (helper_of sample_entities Future.PENDING))) = inr tt.
Proof.
  apply (X15_wait_returns_when_all_report sample_entities).
  - apply reach_init. vm_compute. reflexivity.
  - discriminate.
  - vm_compute. reflexivity.
Defined.

Lemma X16_witness :
  exists w',
    deliver [state_of 1 10 "21.5"; state_of 1 11 "on"]
      (snd (wait_for_initial_states (Some (1 # 20)) []
              (fresh (helper_of sample_entities Future.PENDING)))) = (inr tt, w') /\
    _initial_states_received (self w') = Future.CANCELLED /\
    forall timeout' arrivals',
      wait_for_initial_states timeout' arrivals' w' = (inl CancelledError, w').
Proof.
  apply X16_after_a_timeout.
  - reflexivity.
  - vm_compute. discriminate.
Defined.

Lemma X18_witness :
  ip_address_literal (IpStr (dotted 192 168 1 1)) = IPAddress_octets 192 168 1 1.
Proof. apply X18_dotted_quad_to_octets; lia. Defined.


Lemma X21_witness :
  0 <= 10 <= 255 /\ 0 <= 0 <= 255 /\ 0 <= 0 <= 255 /\ 0 <= 1 <= 255.
Proof.
  apply (X21_octets_are_bytes (IpStr "10.0.0.1")). vm_compute. reflexivity.
Defined.

Lemma X22_witness :
  is_esp32 (MkCore true false true false false false) = true /\
  enable_ipv6 (MkConfig (Some false) (Some 0)) <> None.
Proof.
  apply (proj1 (X22_sdkconfig_and_build_flags_apart
                  (MkCore true false true false false false)
                  (MkConfig (Some false) (Some 0)))).
  reflexivity.
Defined.

Lemma X23_witness :
  fst (to_code (MkCore true false false true false false) (MkConfig (Some true) None) [])
    = inl KeyError.
Proof.
  apply (proj1 (proj2 (X23_key_error_iff_count_missing
                         (MkCore true false false true false false)
                         (MkConfig (Some true) None)))).
  split; reflexivity.
Defined.

Lemma X24_witness :
  add_idf_sdkconfig_option "CONFIG_LWIP_IPV6" true
    ∈ snd (to_code (MkCore true false true false false false)
             (MkConfig (Some false) (Some 0)) []) /\
  add_idf_sdkconfig_option "CONFIG_LWIP_IPV6_AUTOCONFIG" true
    ∈ snd (to_code (MkCore true false true false false false)
             (MkConfig (Some false) (Some 0)) []).
Proof.
  apply (X24_esp32_lwip_options (MkCore true false true false false false)
           (MkConfig (Some false) (Some 0)) false); reflexivity.
Defined.

Lemma X25_witness :
  add_define "USE_NETWORK_MIN_IPV6_ADDR_COUNT" (IntValue 2)
    ∈ snd (to_code (MkCore false true true false false false)
             (MkConfig (Some true) (Some 2)) []).
Proof. apply X25_min_count_defined_iff_enabled. split; reflexivity. Defined.
